(** * SORT: scene intersection and light sampling core

    A shallow embedding of [src/core/scene.cpp] (class [Scene]) and of the
    [Triangle] primitive declared in [src/geometry/triangle.h], together
    with the properties of the intersection and light-sampling paths.

    C++ [float] is IEEE-754 binary32; it is modelled by the standard
    library's [spec_float] with a 24 bit mantissa and exponent bound 128,
    so that [FLT_MAX], NaN, infinities and division by zero behave as in
    the program.

    The first part holds the definitions, the second part the lemmas. *)

From Stdlib Require Import ZArith Bool Lia Permutation String SpecFloat.
From stdpp Require Import base list.

Local Open Scope Z_scope.

(* ===================================================================== *)
(** * Part I: the program *)
(* ===================================================================== *)

(** ** binary32 arithmetic and comparisons *)

Module Float32.

Definition float : Type := spec_float.

Definition prec : Z := 24.
Definition emax : Z := 128.

(** [FLT_MAX] of <cfloat>: the largest finite binary32 value. *)
Definition FLT_MAX : float := Eval vm_compute in SFmax_float prec emax.

Definition fzero : float := S754_zero false.                      (* 0.0f *)
Definition fone : float := Eval vm_compute in SFone prec emax.    (* 1.0f *)
Definition finf : float := S754_infinity false.

Definition fadd : float -> float -> float := SFadd prec emax.
Definition fdiv : float -> float -> float := SFdiv prec emax.

(** The C++ comparison operators [<], [<=], [==] and [!=]. *)
Definition flt : float -> float -> bool := SFltb.
Definition fle : float -> float -> bool := SFleb.
Definition feq : float -> float -> bool := SFeqb.
Definition fne (x y : float) : bool := negb (SFeqb x y).

Definition is_nan (x : float) : bool :=
  match x with S754_nan => true | _ => false end.

(** [total += w] over an array, from [0.0f], left to right. *)
Definition fsum (ws : list float) : float := fold_left fadd ws fzero.

(** Every value but NaN is sent to a triple of integers on which the
    IEEE comparison is the lexicographic one; both zeros share a key. *)
Definition fkey (x : float) : option (Z * Z * Z) :=
  match x with
  | S754_nan => None
  | S754_zero _ => Some (0, 0, 0)
  | S754_infinity true => Some (-2, 0, 0)
  | S754_infinity false => Some (2, 0, 0)
  | S754_finite false m e => Some (1, e, Zpos m)
  | S754_finite true m e => Some (-1, - e, Zneg m)
  end.

Definition key_cmp (a b : Z * Z * Z) : comparison :=
  match a, b with
  | (a1, a2, a3), (b1, b2, b3) =>
      match a1 ?= b1 with
      | Eq => match a2 ?= b2 with Eq => a3 ?= b3 | c => c end
      | c => c
      end
  end.

End Float32.

Import Float32.

#[global]
Instance float_inhabited : Inhabited float := populate fzero.

(** ** Data model *)

(** [LOG_TYPE] of [src/core/log.h]; the second argument of [sAssert]
    names one of these without its [LOG_] prefix. *)
Inductive LOG_TYPE :=
  | LOG_GENERAL | LOG_SPATIAL_ACCELERATOR | LOG_PERFORMANCE | LOG_INTEGRATOR
  | LOG_LIGHT | LOG_MATERIAL | LOG_IMAGE | LOG_SAMPLING | LOG_CAMERA
  | LOG_SHAPE | LOG_STREAM | LOG_RESOURCE | LOG_TASK.

Record Point := { px : float; py : float; pz : float }.

(** A ray: origin, direction and the upper end [m_fMax] of its valid
    parametric range; [Scene] reads [m_fMax] only. *)
Record Ray := { m_Ori : Point; m_Dir : Point; m_fMax : float }.

(** Axis-aligned box: its minimum and maximum corner. *)
Record BBox := { m_Min : Point; m_Max : Point }.

(** [TriMesh] is only pre-declared in [triangle.h]. The triangle/ray
    formula and the boxes of its triangles are its business; here a mesh
    gives, for the triangle of index [id], the parametric distance at
    which a ray meets it (if it does) and the triangle's box. *)
Record TriMesh := {
  mesh_distance : N -> Ray -> option float;
  mesh_bbox : N -> BBox
}.

(** [class Triangle : public Primitive] with its two fields. The triangle
    is the only primitive of the system, so a [Primitive*] points to one. *)
Record Triangle := { m_trimesh : TriMesh; m_id : N }.

Definition Primitive : Type := Triangle.

(** The hit record, as far as [scene.cpp] goes: the two fields it reads
    and writes, [t] and [primitive] (a [Primitive*], [None] being the null
    pointer). The surface data a primitive stores on a hit
    ([geometry/intersection.h] is not in src) are no part of it: an
    equation between two records below speaks of these two fields. *)
Record Intersection := { t : float; primitive : option Primitive }.

(** A light as the scene sees it: the intensity of its [Power()] and the
    pick probability stored by [SetPickPDF]. *)
Record Light := { power_intensity : float; pickPDF : float }.

#[global]
Instance light_inhabited : Inhabited Light :=
  populate {| power_intensity := fzero; pickPDF := fzero |}.

Definition SetPickPDF (pdf : float) (l : Light) : Light :=
  {| power_intensity := power_intensity l; pickPDF := pdf |}.

(** An optional out-parameter [T* p] is an [option T]: [None] for a null
    pointer, [Some v] for a pointer to an object holding [v]; a function
    taking one returns the object's final content the same way. *)
Definition is_null {T : Type} (p : option T) : bool :=
  match p with None => true | Some _ => false end.

(** [for (unsigned i = from; i < from + n; i++) s = body i s]. *)
Fixpoint for_loop {S : Type} (body : nat -> S -> S) (from n : nat) (s : S) : S :=
  match n with
  | O => s
  | Datatypes.S n' => for_loop body (Datatypes.S from) n' (body from s)
  end.

(** ** BoundingVolume *)

Module BBox_.

Definition fmin (a b : float) : float := if flt b a then b else a.
Definition fmax (a b : float) : float := if flt a b then b else a.

Definition pmin (p q : Point) : Point :=
  {| px := fmin (px p) (px q); py := fmin (py p) (py q); pz := fmin (pz p) (pz q) |}.
Definition pmax (p q : Point) : Point :=
  {| px := fmax (px p) (px q); py := fmax (py p) (py q); pz := fmax (pz p) (pz q) |}.

Definition neg_FLT_MAX : float := SFopp FLT_MAX.

(** Modelled from the spec: the canonical empty box ([math/bbox.h] is
    not in src). No point lies in it: its minimum corner is at
    [FLT_MAX], its maximum corner at [-FLT_MAX]. *)
Definition empty : BBox :=
  {| m_Min := {| px := FLT_MAX; py := FLT_MAX; pz := FLT_MAX |};
     m_Max := {| px := neg_FLT_MAX; py := neg_FLT_MAX; pz := neg_FLT_MAX |} |}.

(** Modelled from the spec: [BBox::Union] ([math/bbox.h] is not in
    src): the smallest box containing both, that is the componentwise
    minimum of the minimum corners and maximum of the maximum corners. *)
Definition Union (a b : BBox) : BBox :=
  {| m_Min := pmin (m_Min a) (m_Min b); m_Max := pmax (m_Max a) (m_Max b) |}.

End BBox_.

(** ** Primitive *)

Module Triangle_.

(** The ray's valid parametric range [[0, tMax]]. *)
Definition in_range (d : float) (r : Ray) : bool :=
  fle fzero d && fle d (m_fMax r).

(** Modelled from the spec: [Triangle::GetIntersect] (declared in
    [triangle.h], defined outside src). It returns whether the ray hits
    the primitive within the ray's valid parametric range; a supplied
    hit record is updated in place only when the new hit is strictly
    closer than the record's running best. *)
Definition GetIntersect (p : Primitive) (r : Ray) (intersect : option Intersection)
  : bool * option Intersection :=
  match mesh_distance (m_trimesh p) (m_id p) r with
  | None => (false, intersect)
  | Some d =>
      if in_range d r then
        match intersect with
        | None => (true, None)
        | Some rec =>
            if flt d (t rec)
            then (true, Some {| t := d; primitive := Some p |})
            else (true, Some rec)
        end
      else (false, intersect)
  end.

(** [Triangle::GetBBox]: the triangle's static box. *)
Definition GetBBox (p : Primitive) : BBox := mesh_bbox (m_trimesh p) (m_id p).

End Triangle_.

(** ** DiscreteDistribution1D *)

(** The cumulative table, the clamped weights it was built from and their
  total. *)
Record Distribution1D := {
  d_weights : list float;
  d_cdf : list float;
  d_total : float
}.

Module Distribution1D_.

(** Negative weights are treated as 0. *)
Definition clamp (w : float) : float := if flt w fzero then fzero else w.

(** Prefix sums [w0, w0+w1, ...] accumulated from [acc]. *)
Fixpoint prefix_sums (acc : float) (ws : list float) : list float :=
  match ws with
  | [] => []
  | w :: rest => let acc' := fadd acc w in acc' :: prefix_sums acc' rest
  end.

(** Modelled from the spec: the constructor [Distribution1D(pdf, count)]
    ([core/samplemethod.h] is not in src). It treats negative weights
    as 0, computes the prefix sums of the first [count] weights and
    their total, and normalizes the cumulative sums by the total; with
    a total of 0 the distribution is empty. *)
Definition build (pdf : list float) (count : nat) : Distribution1D :=
  let ws := map clamp (take count pdf) in
  let total := fsum ws in
  if feq total fzero
  then {| d_weights := ws; d_cdf := []; d_total := total |}
  else {| d_weights := ws;
          d_cdf := map (fun c => fdiv c total) (prefix_sums fzero ws);
          d_total := total |}.

(** Index of the first entry of [cdf] that is [>= u], counted from [i];
    one past the last index when there is none. *)
Fixpoint first_ge (u : float) (cdf : list float) (i : Z) : Z :=
  match cdf with
  | [] => i
  | c :: rest => if fle u c then i else first_ge u rest (i + 1)
  end.

Definition is_empty (d : Distribution1D) : bool := feq (d_total d) fzero.

(** Modelled from the spec: [Distribution1D::GetProperty]: the
    normalized probability mass [weight[i] / total] of index [i]. The
    spec gives it for the indices of the table only: there is no answer
    ([None]) for an index outside. *)
Definition GetProperty (d : Distribution1D) (i : nat) : option float :=
  (fun w => fdiv w (d_total d)) <$> d_weights d !! i.

(** The last valid index of a table. *)
Definition last_index (d : Distribution1D) : Z := Z.of_nat (length (d_cdf d)) - 1.

(** Modelled from the spec: [Distribution1D::SampleDiscrete]. It
    locates the first cumulative entry [>= u] (the entry a binary search
    of the non-decreasing table finds) and returns its index and its
    probability mass; [u == 1.0] resolves to the last valid index; on an
    empty distribution it fails with the sentinel index [-1] and pdf 0.
    When no entry is [>= u] the index is one past the table, where there
    is no mass to report (pdf 0). The result is [(id, *pdf)]. *)
Definition SampleDiscrete (d : Distribution1D) (u : float) : Z * float :=
  if is_empty d then (-1, fzero)
  else
    let id := if feq u fone then last_index d else first_ge u (d_cdf d) 0 in
    (id, default fzero (GetProperty d (Z.to_nat id))).

End Distribution1D_.

(** ** Accelerator *)

(** A spatial index over a bound primitive sequence. What distinguishes
    one variant from another is how [Build] lays the bound primitives out
    for traversal ([acc_arrange]). *)
Record Accelerator := {
  acc_arrange : list Primitive -> list Primitive;
  acc_primitives : list Primitive;
  acc_index : list Primitive
}.

Module Accelerator_.

(** Modelled from the spec: [Accelerator::SetPrimitives]
    ([accel/accelerator.h] is not in src) binds the primitive set. *)
Definition SetPrimitives (a : Accelerator) (buf : list Primitive) : Accelerator :=
  {| acc_arrange := acc_arrange a; acc_primitives := buf; acc_index := acc_index a |}.

(** Modelled from the spec: [Accelerator::Build] constructs the
    variant's index from the bound primitives, from scratch. *)
Definition Build (a : Accelerator) : Accelerator :=
  {| acc_arrange := acc_arrange a;
     acc_primitives := acc_primitives a;
     acc_index := acc_arrange a (acc_primitives a) |}.

(** The traversal: [Primitive] intersection composed over the indexed
    primitives, [found] telling whether one of them reported a hit. *)
Fixpoint traverse (index : list Primitive) (r : Ray)
    (intersect : option Intersection) (found : bool) : bool * option Intersection :=
  match index with
  | [] => (found, intersect)
  | p :: rest =>
      let '(flag, intersect') := Triangle_.GetIntersect p r intersect in
      if flag && is_null intersect then (true, intersect')
      else traverse rest r intersect' (found || flag)
  end.

(** Modelled from the spec: [Accelerator::GetIntersect]: the contract
    of the primitive's intersection composed over many primitives. With
    a hit record every indexed primitive is tried against the record,
    which so ends with the globally closest hit; with none the traversal
    stops at the first hit. On an empty set it never reports a hit. *)
Definition GetIntersect (a : Accelerator) (r : Ray) (intersect : option Intersection)
  : bool * option Intersection :=
  traverse (acc_index a) r intersect false.

(** Modelled from the spec: [Accelerator::GetBBox]: the union of the
    boxes of all contained primitives. *)
Definition GetBBox (a : Accelerator) : BBox :=
  fold_left (fun b p => BBox_.Union b (Triangle_.GetBBox p)) (acc_index a) BBox_.empty.

End Accelerator_.

(** ** Scene *)

(** The fields of [Scene] that the functions below read or write.
    [m_BBox] is the [mutable] cache written by the [const] [GetBBox];
    [m_lightsDis] is a [shared_ptr], null until a distribution is made. *)
Record Scene := {
  m_primitiveBuf : list Primitive;
  m_lights : list Light;
  m_BBox : BBox;
  m_lightsDis : option Distribution1D
}.

(** How a call that contains assertions and pointer dereferences ends:
    it returns, it is stopped by a failed [sAssertMsg] (with the message
    given there) or by a failed [sAssert] (which gives none), or it
    dereferences a null pointer. *)
Inductive outcome (A : Type) : Type :=
  | Returned (a : A)
  | AssertionFailed (ty : LOG_TYPE) (msg : string)
  | PlainAssertionFailed (ty : LOG_TYPE)
  | NullDereference.
Arguments Returned {A} a.
Arguments AssertionFailed {A} ty msg.
Arguments PlainAssertionFailed {A} ty.
Arguments NullDereference {A}.

Definition bind {A B : Type} (m : outcome A) (k : A -> outcome B) : outcome B :=
  match m with
  | Returned a => k a
  | AssertionFailed ty msg => AssertionFailed ty msg
  | PlainAssertionFailed ty => PlainAssertionFailed ty
  | NullDereference => NullDereference
  end.

Notation "'let!' x := m 'in' k" := (bind m (fun x => k))
  (at level 10, x name, m at level 100, k at level 200).
Notation "'check!' m 'in' k" := (bind m (fun _ => k))
  (at level 10, m at level 100, k at level 200).

(** Modelled from the spec: the macros [sAssert] and [sAssertMsg]
    ([core/sassert.h] is not in src). In a debug build a false condition
    stops the call, logged under the given type, with the message when
    the macro is given one; a release build does not test the condition. *)
Definition sAssertMsg (debug : bool) (cond : bool) (ty : LOG_TYPE) (msg : string)
  : outcome unit :=
  if debug && negb cond then AssertionFailed ty msg else Returned tt.

Definition sAssert (debug : bool) (cond : bool) (ty : LOG_TYPE) : outcome unit :=
  if debug && negb cond then PlainAssertionFailed ty else Returned tt.

(** [p->...] on a [shared_ptr]. *)
Definition deref {T : Type} (p : option T) : outcome T :=
  match p with
  | Some v => Returned v
  | None => NullDereference
  end.

(** *** The scene description

    [LoadScene] and [_parseTransform] walk a TinyXML document. An element
    has a tag, attributes and child elements (text and comment nodes are
    never visited by the calls below). A [TiXmlElement*] that walks the
    children of a node is the element pointed to together with the
    siblings that follow it; [None] is the null pointer. *)
#[warnings="-register-all"]
Inductive TiXmlElement :=
  | XmlElement (tag : string) (attributes : list (string * string))
               (children : list TiXmlElement).

Definition xml_tag (e : TiXmlElement) : string :=
  match e with XmlElement tag _ _ => tag end.
Definition xml_attributes (e : TiXmlElement) : list (string * string) :=
  match e with XmlElement _ attrs _ => attrs end.
Definition xml_children (e : TiXmlElement) : list TiXmlElement :=
  match e with XmlElement _ _ children => children end.

Definition node_ptr : Type := option (TiXmlElement * list TiXmlElement).

(** The first element named [name] in a run of siblings. *)
Fixpoint find_named (name : string) (siblings : list TiXmlElement) : node_ptr :=
  match siblings with
  | [] => None
  | e :: following =>
      if String.eqb (xml_tag e) name then Some (e, following)
      else find_named name following
  end.

(** [node->FirstChildElement(name)]. *)
Definition FirstChildElement (name : string) (node : TiXmlElement) : node_ptr :=
  find_named name (xml_children node).

(** [node->NextSiblingElement(name)]. *)
Definition NextSiblingElement (name : string) (node : TiXmlElement * list TiXmlElement)
  : node_ptr :=
  find_named name (snd node).

(** [node->Attribute(name)]: the value of the attribute, or a null pointer. *)
Fixpoint lookup_attribute (name : string) (attrs : list (string * string)) : option string :=
  match attrs with
  | [] => None
  | (k, v) :: rest => if String.eqb k name then Some v else lookup_attribute name rest
  end.

Definition Attribute (name : string) (node : TiXmlElement) : option string :=
  lookup_attribute name (xml_attributes node).

(** [while (node) { body; node = node->NextSiblingElement(name); }]. The
    walk moves forward in a finite run of siblings; [fuel] bounds the
    number of rounds. *)
Fixpoint while_element {S : Type} (fuel : nat) (name : string) (node : node_ptr)
    (body : TiXmlElement -> S -> S) (s : S) : S :=
  match fuel with
  | O => s
  | Datatypes.S fuel' =>
      match node with
      | None => s
      | Some (e, following) =>
          while_element fuel' name (NextSiblingElement name (e, following)) body (body e s)
      end
  end.

(** [Transform] ([math/transform.h], not in src) as [_parseTransform]
    uses it: the default-constructed transform, the product [operator*]
    and the parser [TransformFromStr]. *)
Class TransformOps (Transform : Type) := {
  transform_default : Transform;
  transform_mul : Transform -> Transform -> Transform;
  TransformFromStr : string -> Transform
}.

(** An entity as [LoadScene] uses it: a scene object whose [FillScene]
    adds its primitives and lights to the scene. *)
Record Entity := { FillScene : Scene -> Scene }.

(** What [LoadScene] needs to turn a file name into an entity
    ([stream/fstream.h], [core/classtype.h] and the entity classes are
    not in src): the input stream [IFileStream(GetFullPath(filename))],
    [stream >> class_id] (given the value the variable holds before the
    read), and the factory [MakeEntity]: a null pointer for an unknown
    class, otherwise an empty entity, given here by what it becomes when
    [Serialize] reads it from a stream. *)
Class EntityIO := {
  IStream : Type;
  IFileStream : string -> IStream;
  read_class_id : IStream -> N -> N * IStream;
  MakeEntity : N -> option (IStream -> Entity);
}.

(** The members of [Scene] that only loading touches, beside the others. *)
Record SceneDocument := {
  scene : Scene;
  m_entities : list Entity
}.

Module Scene_.

(** [intersect->t = d], guarded by [if (intersect)]. *)
Definition set_t (intersect : option Intersection) (d : float) : option Intersection :=
  match intersect with
  | None => None
  | Some rec => Some {| t := d; primitive := primitive rec |}
  end.

(** The [for] loop of [_bfIntersect] over [m_primitiveBuf[k]]. The
    boolean tells whether the loop left through [return true]. *)
Fixpoint bf_loop (buf : list Primitive) (r : Ray) (intersect : option Intersection)
  : bool * option Intersection :=
  match buf with
  | [] => (false, intersect)
  | p :: rest =>
      let '(flag, intersect') := Triangle_.GetIntersect p r intersect in
      if flag && is_null intersect then (true, intersect')
      else bf_loop rest r intersect'
  end.

(** [Scene::_bfIntersect]. *)
Definition _bfIntersect (s : Scene) (r : Ray) (intersect : option Intersection)
  : bool * option Intersection :=
  let intersect := set_t intersect FLT_MAX in
  let '(returned, intersect) := bf_loop (m_primitiveBuf s) r intersect in
  if returned then (true, intersect)
  else
    match intersect with
    | None => (false, None)
    | Some rec =>
        (flt (t rec) (m_fMax r) && negb (is_null (primitive rec)), Some rec)
    end.

(** [Scene::GetIntersect]. [accel] is what
    [GlobalConfiguration::GetSingleton().GetAccelerator()] returns. *)
Definition GetIntersect (accel : option Accelerator) (s : Scene) (r : Ray)
    (intersect : option Intersection) : bool * option Intersection :=
  let intersect := set_t intersect FLT_MAX in
  match accel with
  | None => _bfIntersect s r intersect
  | Some a => Accelerator_.GetIntersect a r intersect
  end.

(** [Scene::PreProcess]: the configured accelerator, if any, is bound to
    the primitive buffer and built. The result is the accelerator held
    by the global configuration afterwards. *)
Definition PreProcess (accel : option Accelerator) (s : Scene) : option Accelerator :=
  match accel with
  | Some a =>
      Some (Accelerator_.Build (Accelerator_.SetPrimitives a (m_primitiveBuf s)))
  | None => None
  end.

(** The [while] loop of [GetBBox]: each primitive's box is united into
    the box; [calls] counts the calls of [Union]. *)
Fixpoint union_loop (it : list Primitive) (box : BBox) (calls : nat) : BBox * nat :=
  match it with
  | [] => (box, calls)
  | p :: rest =>
      union_loop rest (BBox_.Union box (Triangle_.GetBBox p)) (Datatypes.S calls)
  end.

(** What a call of [GetBBox] yields: the box returned, the scene with
    its cache field as the call leaves it, and how many times the call
    ran [Union]. *)
Record bbox_result := { box_returned : BBox; scene_after : Scene; union_calls : nat }.

(** [Scene::GetBBox]. *)
Definition GetBBox (accel : option Accelerator) (s : Scene) : bbox_result :=
  match accel with
  | Some a =>
      {| box_returned := Accelerator_.GetBBox a; scene_after := s; union_calls := O |}
  | None =>
      let '(box, calls) := union_loop (m_primitiveBuf s) (m_BBox s) O in
      {| box_returned := box;
         scene_after := {| m_primitiveBuf := m_primitiveBuf s;
                           m_lights := m_lights s;
                           m_BBox := box;
                           m_lightsDis := m_lightsDis s |};
         union_calls := calls |}
  end.

(** [Scene::_genLightDistribution]. The array [pdf] comes from
    [new float[count]]; every cell is written before it is read. *)
Definition _genLightDistribution (s : Scene) : Scene :=
  let count := length (m_lights s) in
  if (count =? 0)%nat then s
  else
    let pdf := replicate count fzero in
    let pdf :=
      for_loop (fun i pdf => <[i := power_intensity (m_lights s !!! i)]> pdf) O count pdf in
    let total_pdf :=
      for_loop (fun i total_pdf => fadd total_pdf (pdf !!! i)) O count fzero in
    let lights :=
      for_loop (fun i lights => alter (SetPickPDF (fdiv (pdf !!! i) total_pdf)) i lights)
        O count (m_lights s) in
    {| m_primitiveBuf := m_primitiveBuf s;
       m_lights := lights;
       m_BBox := m_BBox s;
       m_lightsDis := Some (Distribution1D_.build pdf count) |}.

(** [Scene::SampleLight]. The result is the light returned (a null
    pointer is [None]) and the final content of what [pdf] points to. *)
Definition SampleLight (debug : bool) (s : Scene) (u : float) (pdf : option float)
  : outcome (option Light * option float) :=
  check! sAssert debug (fle fzero u && fle u fone) LOG_SAMPLING in
  check! sAssertMsg debug (negb (is_null (m_lightsDis s))) LOG_SAMPLING
           "No light in the scene." in
  let! d := deref (m_lightsDis s) in
  let '(id, _pdf) := Distribution1D_.SampleDiscrete d u in
  if (0 <=? id) && (id <? Z.of_nat (length (m_lights s))) && fne _pdf fzero
  then
    Returned (m_lights s !! Z.to_nat id,
              match pdf with Some _ => Some _pdf | None => None end)
  else Returned (None, pdf).

(** [Scene::LightProperbility]: what [GetProperty] answers for [i]. *)
Definition LightProperbility (debug : bool) (s : Scene) (i : nat)
  : outcome (option float) :=
  check! sAssert debug (negb (is_null (m_lightsDis s))) LOG_LIGHT in
  let! d := deref (m_lightsDis s) in
  Returned (Distribution1D_.GetProperty d i).

(** [Scene::_generatePriBuf]: every entity of [m_entities] fills the scene. *)
Definition _generatePriBuf (d : SceneDocument) : SceneDocument :=
  {| scene := fold_left (fun s e => FillScene e s) (m_entities d) (scene d);
     m_entities := m_entities d |}.

(** The body of the loop of [LoadScene] for one [Entity] element. *)
Definition load_entity `{EntityIO} (meshNode : TiXmlElement) (entities : list Entity)
  : list Entity :=
  match Attribute "filename" meshNode with
  | Some filename =>
      let stream := IFileStream filename in
      let '(class_id, stream) := read_class_id stream 0%N in
      match MakeEntity class_id with
      | Some entity => entities ++ [entity stream]
      | None => entities
      end
  | None => entities
  end.

(** [Scene::LoadScene]. *)
Definition LoadScene `{EntityIO} (root : TiXmlElement) (d : SceneDocument)
  : bool * SceneDocument :=
  let entities :=
    while_element (Datatypes.S (length (xml_children root))) "Entity"
      (FirstChildElement "Entity" root) load_entity (m_entities d) in
  let d := _generatePriBuf {| scene := scene d; m_entities := entities |} in
  (true, {| scene := _genLightDistribution (scene d); m_entities := m_entities d |}).

(** [Scene::_parseTransform]. *)
Definition _parseTransform `{TransformOps Transform} (node : option TiXmlElement)
  : Transform :=
  let transform := transform_default in
  match node with
  | Some node =>
      while_element (Datatypes.S (length (xml_children node))) "Matrix"
        (FirstChildElement "Matrix" node)
        (fun node transform =>
           match Attribute "value" node with
           | Some trans => transform_mul (TransformFromStr trans) transform
           | None => transform
           end)
        transform
  | None => transform
  end.

End Scene_.

(** ** The closest-hit accumulation

    What one primitive's intersection test does to a supplied hit record
    and what a scan over many primitives leaves in it, written as a fold;
    the lemmas of the second part relate the loops above to it. *)

Definition distance_of (r : Ray) (p : Primitive) : option float :=
  mesh_distance (m_trimesh p) (m_id p) r.

(** The primitive meets the ray at distance [d] within [[0, tMax]]. *)
Definition hits (r : Ray) (p : Primitive) (d : float) : Prop :=
  distance_of r p = Some d /\ Triangle_.in_range d r = true.

(** The answer of the primitive to a query without hit record. *)
Definition reports (r : Ray) (p : Primitive) : bool :=
  fst (Triangle_.GetIntersect p r None).

Definition consider (r : Ray) (rec : Intersection) (p : Primitive) : Intersection :=
  match distance_of r p with
  | Some d =>
      if Triangle_.in_range d r && flt d (t rec)
      then {| t := d; primitive := Some p |}
      else rec
  | None => rec
  end.

Definition closest (r : Ray) (buf : list Primitive) (rec : Intersection) : Intersection :=
  fold_left (consider r) buf rec.

(** The record as [GetIntersect] makes it on entry: [t] overwritten with
    [FLT_MAX], the other field as the caller left it. *)
Definition entry (rec : Intersection) : Intersection :=
  {| t := FLT_MAX; primitive := primitive rec |}.

(** The distance two runs left in their records is the same number. *)
Definition same_distance (a b : option Intersection) : Prop :=
  match a, b with
  | Some ra, Some rb => feq (t ra) (t rb) = true
  | None, None => True
  | _, _ => False
  end.

(** The body of the loop of [GetBBox]. *)
Definition unite (box : BBox) (p : Primitive) : BBox :=
  BBox_.Union box (Triangle_.GetBBox p).

(** The intensities [m_lights[i]->Power().GetIntensity()] of the lights. *)
Definition powers (lights : list Light) : list float := map power_intensity lights.

(** ** What the walks over the scene description visit *)

Definition named (name : string) (e : TiXmlElement) : bool := String.eqb (xml_tag e) name.

(** The [value] attributes of the [Matrix] children, in document order. *)
Definition matrix_values (node : TiXmlElement) : list string :=
  omap (Attribute "value") (List.filter (named "Matrix") (xml_children node)).

(** The product [T(vn) * ... * T(v1) * acc] of the matrices parsed from
    the texts [v1 ... vn]. *)
Definition transform_product {Transform : Type} `{TransformOps Transform}
    (values : list string) (acc : Transform) : Transform :=
  fold_left (fun acc v => transform_mul (TransformFromStr v) acc) values acc.

(** The entity one [Entity] element stands for, if it names a file whose
    class the factory knows. *)
Definition entity_of `{EntityIO} (meshNode : TiXmlElement) : option Entity :=
  match Attribute "filename" meshNode with
  | Some filename =>
      let '(class_id, stream) := read_class_id (IFileStream filename) 0%N in
      match MakeEntity class_id with
      | Some entity => Some (entity stream)
      | None => None
      end
  | None => None
  end.

(** The entities of a document, in document order. *)
Definition entities_of `{EntityIO} (root : TiXmlElement) : list Entity :=
  omap entity_of (List.filter (named "Entity") (xml_children root)).

(** The body of the loop of [_generatePriBuf]. *)
Definition fill (s : Scene) (e : Entity) : Scene := FillScene e s.

(** An entity that only appends the primitives [ps] to the buffer. *)
Definition appends (e : Entity) (ps : list Primitive) : Prop :=
  forall s, m_primitiveBuf (FillScene e s) = m_primitiveBuf s ++ ps.

(** One step of a running extreme: [b] replaces [a] when it is better
    ([b < a] for a minimum, [a < b] for a maximum). *)
Definition pick (better : float -> float -> bool) (a b : float) : float :=
  if better b a then b else a.

(** A finite number other than zero. *)
Definition finite_nonzero (x : float) : bool :=
  match x with S754_finite _ _ _ => true | _ => false end.

(** A finite number: neither a NaN nor an infinity. *)
Definition is_finite (x : float) : bool :=
  match x with S754_zero _ | S754_finite _ _ _ => true | _ => false end.

(** A number that is neither negative nor infinite. *)
Definition finite_nonneg (x : float) : Prop :=
  fle fzero x = true /\ flt x finf = true.

(** Two boxes with equal ([==]) coordinates. *)
Definition same_point (p q : Point) : Prop :=
  feq (px p) (px q) = true /\ feq (py p) (py q) = true /\ feq (pz p) (pz q) = true.

Definition same_box (a b : BBox) : Prop :=
  same_point (m_Min a) (m_Min b) /\ same_point (m_Max a) (m_Max b).

(** A box none of whose coordinates is a NaN. *)
Definition point_numbers (p : Point) : Prop :=
  is_nan (px p) = false /\ is_nan (py p) = false /\ is_nan (pz p) = false.

Definition box_numbers (b : BBox) : Prop :=
  point_numbers (m_Min b) /\ point_numbers (m_Max b).

(** ** Concrete scenes *)

Module Sample.

Definition f2 : float := S754_finite false 8388608 (-22).     (* 2.0f *)
Definition f3 : float := S754_finite false 12582912 (-22).    (* 3.0f *)
Definition f5 : float := S754_finite false 10485760 (-21).    (* 5.0f *)
Definition half : float := S754_finite false 8388608 (-24).   (* 0.5f *)
Definition tenth : float := Eval vm_compute in fdiv fone (S754_finite false 10485760 (-20)).  (* 0.1f *)

Definition origin : Point := {| px := fzero; py := fzero; pz := fzero |}.

(** A ray from the origin along the x axis, valid up to [tmax]. *)
Definition ray_to (tmax : float) : Ray :=
  {| m_Ori := origin;
     m_Dir := {| px := fone; py := fzero; pz := fzero |};
     m_fMax := tmax |}.

Definition unit_box : BBox :=
  {| m_Min := origin; m_Max := {| px := fone; py := fone; pz := fone |} |}.

(** A mesh each of whose triangles is met by every ray at distance [d]. *)
Definition wall (d : float) : TriMesh :=
  {| mesh_distance := fun _ _ => Some d; mesh_bbox := fun _ => unit_box |}.

Definition tri (d : float) (id : N) : Primitive :=
  {| m_trimesh := wall d; m_id := id |}.

Definition scene_of (buf : list Primitive) (lights : list Light) : Scene :=
  {| m_primitiveBuf := buf; m_lights := lights;
     m_BBox := BBox_.empty; m_lightsDis := None |}.

Definition light (power : float) : Light :=
  {| power_intensity := power; pickPDF := fzero |}.

(** A hit record that holds no primitive yet. *)
Definition fresh : Intersection := {| t := FLT_MAX; primitive := None |}.

End Sample.

(** ** Concrete scene descriptions *)

Module SampleDocument.

Import Sample.

(** A file system in which the file [missing] cannot be read and every
    other file holds class id 1 followed by the length of its name; class
    1 is an entity that appends one triangle per number left in its
    stream, every other class is unknown to the factory. *)
Definition mesh_entity (stream : list N) : Entity :=
  {| FillScene := fun s =>
       {| m_primitiveBuf := m_primitiveBuf s ++ map (tri f2) stream;
          m_lights := m_lights s;
          m_BBox := m_BBox s;
          m_lightsDis := m_lightsDis s |} |}.

#[export]
Instance toy_files : EntityIO :=
  {| IStream := list N;
     IFileStream := fun filename =>
       if String.eqb filename "missing" then []
       else [1%N; N.of_nat (String.length filename)];
     read_class_id := fun stream class_id =>
       match stream with
       | [] => (class_id, [])
       | x :: rest => (x, rest)
       end;
     MakeEntity := fun class_id =>
       if N.eqb class_id 1 then Some mesh_entity else None |}.

Definition entity_element (filename : string) : TiXmlElement :=
  XmlElement "Entity" [("filename"%string, filename)] [].

(** A document with two loadable entities, an unreadable one, an element
    without file name and an element that is no entity. *)
Definition document : TiXmlElement :=
  XmlElement "Root" []
    [entity_element "ab"; XmlElement "Camera" [] []; entity_element "missing";
     XmlElement "Entity" [] []; entity_element "abc"].

Definition empty_document : SceneDocument :=
  {| scene := scene_of [] []; m_entities := [] |}.

End SampleDocument.

(* ===================================================================== *)
(** * Part II: properties *)
(* ===================================================================== *)

(** ** The order of binary32 *)

Module Float32Facts.

Lemma SFcompare_key (x y : float) :
  SFcompare x y =
  match fkey x, fkey y with
  | Some a, Some b => Some (key_cmp a b)
  | _, _ => None
  end.
Proof.
  destruct x as [sx|sx| |sx mx ex], y as [sy|sy| |sy my ey];
    try destruct sx; try destruct sy; try reflexivity; simpl.
  rewrite Z.compare_opp.
  destruct (Z.compare_spec ey ex), (Z.compare_spec ex ey);
    try lia; reflexivity.
Qed.

Lemma is_nan_key (x : float) :
  is_nan x = match fkey x with None => true | Some _ => false end.
Proof. destruct x as [[]|[]| |[] ? ?]; reflexivity. Qed.

(** Reduces a goal about comparisons of floats to integer arithmetic. *)
Ltac key_of x := destruct (fkey x) as [[[? ?] ?]|].

Ltac cmp_cases :=
  repeat match goal with
    | H : context [Z.compare ?a ?b] |- _ => destruct (Z.compare_spec a b)
    | |- context [Z.compare ?a ?b] => destruct (Z.compare_spec a b)
    end.

Ltac float_order :=
  unfold fne, flt, fle, feq, SFltb, SFleb, SFeqb in *;
  rewrite ?SFcompare_key, ?is_nan_key in *;
  repeat match goal with
    | H : context [fkey ?x] |- _ => is_var x; key_of x
    | |- context [fkey ?x] => is_var x; key_of x
    end;
  simpl in *; cmp_cases; simpl in *;
  try discriminate; try congruence; try lia.

Lemma flt_irrefl (x : float) : flt x x = false.
Proof. float_order. Qed.

Lemma flt_trans (x y z : float) :
  flt x y = true -> flt y z = true -> flt x z = true.
Proof. intros Hxy Hyz. float_order. Qed.

Lemma fle_trans (x y z : float) :
  fle x y = true -> fle y z = true -> fle x z = true.
Proof. intros Hxy Hyz. float_order. Qed.

Lemma flt_fle_trans (x y z : float) :
  flt x y = true -> fle y z = true -> flt x z = true.
Proof. intros Hxy Hyz. float_order. Qed.

Lemma fle_flt_trans (x y z : float) :
  fle x y = true -> flt y z = true -> flt x z = true.
Proof. intros Hxy Hyz. float_order. Qed.

Lemma flt_fle (x y : float) : flt x y = true -> fle x y = true.
Proof. intros H. float_order. Qed.

Lemma fle_refl (x : float) : is_nan x = false -> fle x x = true.
Proof. intros H. float_order. Qed.

(** On numbers the order is total. *)
Lemma not_flt_fle (x y : float) :
  is_nan x = false -> is_nan y = false ->
  flt x y = false -> fle y x = true.
Proof.
  intros Hx Hy H. float_order.
Qed.

Lemma fle_not_nan_l (x y : float) : fle x y = true -> is_nan x = false.
Proof. intros H. float_order. Qed.

Lemma fle_not_nan_r (x y : float) : fle x y = true -> is_nan y = false.
Proof. intros H. float_order. Qed.

Lemma fle_not_flt (x y : float) : fle x y = true -> flt y x = false.
Proof. intros H. float_order. Qed.

(** [==] is an equivalence on numbers and the comparisons respect it. *)
Lemma feq_refl (x : float) : is_nan x = false -> feq x x = true.
Proof. intros H. float_order. Qed.

Lemma feq_sym (x y : float) : feq x y = true -> feq y x = true.
Proof. intros H. float_order. Qed.

Lemma feq_trans (x y z : float) :
  feq x y = true -> feq y z = true -> feq x z = true.
Proof. intros Hxy Hyz. float_order. Qed.

Lemma feq_flt_l (x y z : float) : feq x y = true -> flt x z = flt y z.
Proof. intros H. float_order. Qed.

Lemma feq_flt_r (x y z : float) : feq x y = true -> flt z x = flt z y.
Proof. intros H. float_order. Qed.

Lemma feq_fle_l (x y z : float) : feq x y = true -> fle x z = fle y z.
Proof. intros H. float_order. Qed.

Lemma feq_fle_r (x y z : float) : feq x y = true -> fle z x = fle z y.
Proof. intros H. float_order. Qed.

Lemma feq_not_nan_l (x y : float) : feq x y = true -> is_nan x = false.
Proof. intros H. float_order. Qed.

Lemma fle_antisym (x y : float) :
  fle x y = true -> fle y x = true -> feq x y = true.
Proof. intros Hxy Hyx. float_order. Qed.

End Float32Facts.

Import Float32Facts.

(** ** The closest-hit accumulation *)

Section ClosestHit.

Variable r : Ray.

Local Abbreviation distance_of := (distance_of r).
Local Abbreviation hits := (hits r).
Local Abbreviation reports := (reports r).
Local Abbreviation consider := (consider r).
Local Abbreviation closest := (closest r).

Lemma GetIntersect_record (p : Primitive) (rec : Intersection) :
  Triangle_.GetIntersect p r (Some rec) = (reports p, Some (consider rec p)).
Proof.
  unfold Triangle_.GetIntersect, reports, consider, distance_of, Triangle_.GetIntersect.
  destruct (mesh_distance (m_trimesh p) (m_id p) r) as [d|]; [|reflexivity].
  destruct (Triangle_.in_range d r); [|reflexivity].
  destruct (flt d (t rec)); reflexivity.
Qed.

Lemma GetIntersect_null (p : Primitive) :
  Triangle_.GetIntersect p r None = (reports p, None).
Proof.
  unfold reports, Triangle_.GetIntersect.
  destruct (mesh_distance (m_trimesh p) (m_id p) r) as [d|]; [|reflexivity].
  destruct (Triangle_.in_range d r); reflexivity.
Qed.

Lemma reports_hits (p : Primitive) :
  reports p = true <-> exists d, hits p d.
Proof.
  unfold reports, hits, distance_of, Triangle_.GetIntersect.
  destruct (mesh_distance (m_trimesh p) (m_id p) r) as [d|].
  - destruct (Triangle_.in_range d r) eqn:E; simpl; split.
    + intros _. exists d. auto.
    + reflexivity.
    + discriminate.
    + intros [d' [Hd Hr]]. inversion Hd. subst d'. congruence.
  - simpl. split; [discriminate|]. intros [d [Hd _]]. discriminate.
Qed.

Lemma hits_range (p : Primitive) (d : float) :
  hits p d -> fle fzero d = true /\ fle d (m_fMax r) = true.
Proof.
  intros [_ H]. unfold Triangle_.in_range in H.
  apply andb_true_iff in H. exact H.
Qed.

Lemma hits_not_nan (p : Primitive) (d : float) : hits p d -> is_nan d = false.
Proof. intros H. apply hits_range in H as [H _]. eapply fle_not_nan_r; eauto. Qed.

(** *** The loops, with and without a hit record *)

Lemma bf_loop_record (buf : list Primitive) (rec : Intersection) :
  Scene_.bf_loop buf r (Some rec) = (false, Some (closest buf rec)).
Proof.
  revert rec. induction buf as [|p buf IH]; intros rec; simpl; [reflexivity|].
  rewrite GetIntersect_record. simpl. rewrite andb_false_r. apply IH.
Qed.

Lemma bf_loop_null (buf : list Primitive) :
  Scene_.bf_loop buf r None = (existsb reports buf, None).
Proof.
  induction buf as [|p buf IH]; simpl; [reflexivity|].
  rewrite GetIntersect_null. simpl. rewrite andb_true_r.
  destruct (reports p); simpl; [reflexivity|apply IH].
Qed.

Lemma traverse_record (idx : list Primitive) (rec : Intersection) (found : bool) :
  Accelerator_.traverse idx r (Some rec) found
  = (found || existsb reports idx, Some (closest idx rec)).
Proof.
  revert rec found. induction idx as [|p idx IH]; intros rec found; simpl.
  - rewrite orb_false_r. reflexivity.
  - rewrite GetIntersect_record. simpl. rewrite andb_false_r, IH.
    rewrite orb_assoc. reflexivity.
Qed.

Lemma traverse_null (idx : list Primitive) (found : bool) :
  Accelerator_.traverse idx r None found = (found || existsb reports idx, None).
Proof.
  revert found. induction idx as [|p idx IH]; intros found; simpl.
  - rewrite orb_false_r. reflexivity.
  - rewrite GetIntersect_null. simpl. rewrite andb_true_r.
    destruct (reports p); simpl.
    + rewrite orb_true_r. reflexivity.
    + rewrite IH, orb_false_r. reflexivity.
Qed.

(** *** What the scan leaves in the record *)

Lemma consider_cases (rec : Intersection) (p : Primitive) :
  consider rec p = rec \/
  exists d, hits p d /\ flt d (t rec) = true /\
            consider rec p = {| t := d; primitive := Some p |}.
Proof.
  unfold consider, hits.
  destruct (distance_of p) as [d|]; [|left; reflexivity].
  destruct (Triangle_.in_range d r) eqn:Hr; [|left; reflexivity].
  destruct (flt d (t rec)) eqn:Hlt; [|left; reflexivity].
  right. exists d. auto.
Qed.

Lemma consider_not_nan (rec : Intersection) (p : Primitive) :
  is_nan (t rec) = false -> is_nan (t (consider rec p)) = false.
Proof.
  intros H. destruct (consider_cases rec p) as [->|[d [Hh [_ ->]]]]; [exact H|].
  simpl. eapply hits_not_nan; eauto.
Qed.

Lemma consider_le (rec : Intersection) (p : Primitive) :
  is_nan (t rec) = false -> fle (t (consider rec p)) (t rec) = true.
Proof.
  intros H. destruct (consider_cases rec p) as [->|[d [Hh [Hlt ->]]]].
  - apply fle_refl, H.
  - simpl. apply flt_fle, Hlt.
Qed.

Lemma consider_le_hit (rec : Intersection) (p : Primitive) (d : float) :
  is_nan (t rec) = false -> hits p d -> fle (t (consider rec p)) d = true.
Proof.
  intros Hn Hh. pose proof (hits_not_nan _ _ Hh) as Hd.
  destruct Hh as [Hd1 Hr]. unfold consider. rewrite Hd1, Hr. simpl.
  destruct (flt d (t rec)) eqn:Hlt; simpl.
  - apply fle_refl, Hd.
  - apply not_flt_fle; auto.
Qed.

Lemma closest_not_nan (buf : list Primitive) (rec : Intersection) :
  is_nan (t rec) = false -> is_nan (t (closest buf rec)) = false.
Proof.
  revert rec. induction buf as [|p buf IH]; intros rec H; simpl; [exact H|].
  apply IH, consider_not_nan, H.
Qed.

(** The running best only decreases. *)
Lemma closest_le (buf : list Primitive) (rec : Intersection) :
  is_nan (t rec) = false -> fle (t (closest buf rec)) (t rec) = true.
Proof.
  revert rec. induction buf as [|p buf IH]; intros rec H; simpl.
  - apply fle_refl, H.
  - eapply fle_trans; [apply IH, consider_not_nan, H|apply consider_le, H].
Qed.

(** The final distance is below every hit of the scanned primitives. *)
Lemma closest_lower_bound (buf : list Primitive) (rec : Intersection)
    (p : Primitive) (d : float) :
  is_nan (t rec) = false -> In p buf -> hits p d ->
  fle (t (closest buf rec)) d = true.
Proof.
  revert rec. induction buf as [|q buf IH]; intros rec Hn Hin Hh; simpl.
  - destruct Hin.
  - destruct Hin as [->|Hin].
    + eapply fle_trans; [apply closest_le, consider_not_nan, Hn|].
      apply consider_le_hit; assumption.
    + apply IH; auto using consider_not_nan.
Qed.

(** The final record is the initial one or a strictly closer hit of one
    of the scanned primitives. *)
Lemma closest_cases (buf : list Primitive) (rec : Intersection) :
  closest buf rec = rec \/
  exists p d, In p buf /\ hits p d /\ flt d (t rec) = true /\
              closest buf rec = {| t := d; primitive := Some p |}.
Proof.
  revert rec. induction buf as [|q buf IH]; intros rec; simpl; [left; reflexivity|].
  destruct (IH (consider rec q)) as [E|[p [d [Hin [Hh [Hlt E]]]]]].
  - rewrite E. destruct (consider_cases rec q) as [E'|[d [Hh [Hlt E']]]].
    + left. exact E'.
    + right. exists q, d. auto.
  - right. exists p, d. repeat split; auto; try apply Hh.
    destruct (consider_cases rec q) as [E'|[d' [Hh' [Hlt' E']]]].
    + rewrite E' in Hlt. exact Hlt.
    + rewrite E' in Hlt. simpl in Hlt. eapply flt_trans; eauto.
Qed.

(** A strictly closer hit among the primitives does update the record. *)
Lemma closest_updates (buf : list Primitive) (rec : Intersection)
    (p : Primitive) (d : float) :
  is_nan (t rec) = false -> In p buf -> hits p d -> flt d (t rec) = true ->
  exists p' d', In p' buf /\ hits p' d' /\ flt d' (t rec) = true /\
                closest buf rec = {| t := d'; primitive := Some p' |}.
Proof.
  intros Hn Hin Hh Hlt.
  destruct (closest_cases buf rec) as [E|H]; [|exact H].
  pose proof (closest_lower_bound buf rec p d Hn Hin Hh) as Hle.
  rewrite E in Hle. apply fle_not_flt in Hle. congruence.
Qed.

(** The final distance does not depend on the primitive pointer the
    record came with; the final pointer does only if nothing is hit. *)
Lemma closest_prior (buf : list Primitive) (rec1 rec2 : Intersection) :
  t rec1 = t rec2 ->
  (closest buf rec1 = rec1 /\ closest buf rec2 = rec2) \/
  closest buf rec1 = closest buf rec2.
Proof.
  revert rec1 rec2. induction buf as [|q buf IH]; intros rec1 rec2 Ht; simpl.
  - left. auto.
  - assert (consider rec1 q = rec1 /\ consider rec2 q = rec2 \/
            consider rec1 q = consider rec2 q) as [[E1 E2]|E].
    { unfold consider. rewrite <- Ht.
      destruct (distance_of q) as [d|]; [|left; auto].
      destruct (Triangle_.in_range d r && flt d (t rec1)); [right|left]; auto. }
    + rewrite E1, E2. apply IH, Ht.
    + rewrite E. right. reflexivity.
Qed.

Lemma closest_prior_t (buf : list Primitive) (rec1 rec2 : Intersection) :
  t rec1 = t rec2 -> t (closest buf rec1) = t (closest buf rec2).
Proof.
  intros Ht. destruct (closest_prior buf rec1 rec2 Ht) as [[-> ->]| ->];
    [exact Ht|reflexivity].
Qed.

(** Scanning a permutation of the primitives ends with an equal
    distance, and with a null pointer in both records or in none. *)
Lemma closest_permutation (buf buf' : list Primitive) (rec : Intersection) :
  Permutation buf buf' -> is_nan (t rec) = false ->
  feq (t (closest buf rec)) (t (closest buf' rec)) = true /\
  is_null (primitive (closest buf rec)) = is_null (primitive (closest buf' rec)).
Proof.
  intros HP Hn.
  destruct (closest_cases buf rec) as [E|[p [d [Hin [Hh [Hlt E]]]]]];
    destruct (closest_cases buf' rec) as [E'|[p' [d' [Hin' [Hh' [Hlt' E']]]]]].
  - rewrite E, E'. split; [apply feq_refl, Hn|reflexivity].
  - exfalso. apply (Permutation_in _ (Permutation_sym HP)) in Hin'.
    pose proof (closest_lower_bound buf rec p' d' Hn Hin' Hh') as Hle.
    rewrite E in Hle. apply fle_not_flt in Hle. congruence.
  - exfalso. apply (Permutation_in _ HP) in Hin.
    pose proof (closest_lower_bound buf' rec p d Hn Hin Hh) as Hle.
    rewrite E' in Hle. apply fle_not_flt in Hle. congruence.
  - pose proof (closest_lower_bound buf rec p' d' Hn
                  (Permutation_in _ (Permutation_sym HP) Hin') Hh') as H1.
    pose proof (closest_lower_bound buf' rec p d Hn
                  (Permutation_in _ HP Hin) Hh) as H2.
    rewrite E in *. rewrite E' in *. simpl in *.
    split; [apply fle_antisym; assumption|reflexivity].
Qed.

(** A primitive is met at one distance only. *)
Lemma hits_functional (p : Primitive) (d d' : float) : hits p d -> hits p d' -> d = d'.
Proof. intros [H _] [H' _]. congruence. Qed.

(** A record the scan has updated holds the first primitive, in scanning
    order, that is met at the final distance: every primitive scanned
    before it is met strictly farther. *)
Lemma closest_first (buf : list Primitive) (rec : Intersection) :
  is_nan (t rec) = false ->
  closest buf rec = rec \/
  exists front p back,
    buf = front ++ p :: back /\
    primitive (closest buf rec) = Some p /\
    hits p (t (closest buf rec)) /\
    flt (t (closest buf rec)) (t rec) = true /\
    (forall q d, In q front -> hits q d -> flt (t (closest buf rec)) d = true).
Proof.
  revert rec. induction buf as [|q buf IH]; intros rec Hn; [left; reflexivity|].
  change (closest (q :: buf) rec) with (closest buf (consider rec q)).
  pose proof (consider_not_nan rec q Hn) as Hn'.
  destruct (IH (consider rec q) Hn')
    as [E|[front [p [back [Ebuf [Hp [Hh [Hlt Hfront]]]]]]]].
  - rewrite E. destruct (consider_cases rec q) as [E'|[d [Hh [Hlt E']]]].
    + left. exact E'.
    + right. exists [], q, buf. rewrite E'. simpl.
      split; [reflexivity|]. split; [reflexivity|]. split; [exact Hh|].
      split; [exact Hlt|]. intros q' d' [].
  - right. exists (q :: front), p, back.
    split; [rewrite Ebuf; reflexivity|]. split; [exact Hp|]. split; [exact Hh|].
    split.
    + eapply flt_fle_trans; [exact Hlt|apply consider_le, Hn].
    + intros q' d' [<-|Hin] Hh'.
      * eapply flt_fle_trans; [exact Hlt|apply consider_le_hit; assumption].
      * apply (Hfront q' d' Hin Hh').
Qed.

(** When no two primitives are met at the final distance, scanning a
    permutation of the primitives ends with the same primitive at the
    same distance. *)
Lemma closest_permutation_unique (buf buf' : list Primitive) (rec : Intersection) :
  Permutation buf buf' -> is_nan (t rec) = false ->
  (forall p q d d', In p buf -> In q buf -> hits p d -> hits q d' ->
                    feq d (t (closest buf rec)) = true ->
                    feq d' (t (closest buf rec)) = true -> p = q) ->
  closest buf rec = closest buf' rec.
Proof.
  intros HP Hn Huniq.
  destruct (closest_permutation buf buf' rec HP Hn) as [Ht _].
  destruct (closest_cases buf rec) as [E|[p [d [Hin [Hh [Hlt E]]]]]];
    destruct (closest_cases buf' rec) as [E'|[p' [d' [Hin' [Hh' [Hlt' E']]]]]].
  - rewrite E, E'. reflexivity.
  - exfalso. rewrite E, E' in Ht. simpl in Ht.
    rewrite (feq_flt_l _ _ _ (feq_sym _ _ Ht)) in Hlt'.
    rewrite flt_irrefl in Hlt'. discriminate.
  - exfalso. rewrite E, E' in Ht. simpl in Ht.
    rewrite (feq_flt_l _ _ _ Ht) in Hlt.
    rewrite flt_irrefl in Hlt. discriminate.
  - apply (Permutation_in _ (Permutation_sym HP)) in Hin'.
    rewrite E in Huniq. rewrite E, E' in Ht. simpl in Huniq, Ht.
    assert (Hpp : p = p').
    { apply (Huniq p p' d d' Hin Hin' Hh Hh').
      - apply feq_refl. eapply hits_not_nan; eauto.
      - apply feq_sym, Ht. }
    subst p'. rewrite (hits_functional p d d' Hh Hh') in E.
    rewrite E, E'. reflexivity.
Qed.

Lemma existsb_reports_permutation (buf buf' : list Primitive) :
  Permutation buf buf' -> existsb reports buf = existsb reports buf'.
Proof.
  intros HP. apply eq_true_iff_eq. rewrite !existsb_exists.
  split; intros [p [Hin Hp]]; exists p; split; auto.
  - eapply Permutation_in; eauto.
  - eapply Permutation_in; [apply Permutation_sym|]; eauto.
Qed.

End ClosestHit.

(** ** Scene::GetIntersect *)

Module Intersect.

Import Sample.

(** *** The four paths of [GetIntersect] in closed form *)

Lemma bf_record (s : Scene) (r : Ray) (rec : Intersection) :
  Scene_.GetIntersect None s r (Some rec) =
  (flt (t (closest r (m_primitiveBuf s) (entry rec))) (m_fMax r)
     && negb (is_null (primitive (closest r (m_primitiveBuf s) (entry rec)))),
   Some (closest r (m_primitiveBuf s) (entry rec))).
Proof.
  unfold Scene_.GetIntersect, Scene_._bfIntersect. simpl.
  rewrite bf_loop_record. reflexivity.
Qed.

Lemma bf_null (s : Scene) (r : Ray) :
  Scene_.GetIntersect None s r None = (existsb (reports r) (m_primitiveBuf s), None).
Proof.
  unfold Scene_.GetIntersect, Scene_._bfIntersect. simpl.
  rewrite bf_loop_null. destruct (existsb (reports r) (m_primitiveBuf s)); reflexivity.
Qed.

Lemma accel_record (a : Accelerator) (s : Scene) (r : Ray) (rec : Intersection) :
  Scene_.GetIntersect (Some a) s r (Some rec) =
  (existsb (reports r) (acc_index a), Some (closest r (acc_index a) (entry rec))).
Proof.
  unfold Scene_.GetIntersect, Accelerator_.GetIntersect. simpl.
  rewrite traverse_record. reflexivity.
Qed.

Lemma accel_null (a : Accelerator) (s : Scene) (r : Ray) :
  Scene_.GetIntersect (Some a) s r None = (existsb (reports r) (acc_index a), None).
Proof.
  unfold Scene_.GetIntersect, Accelerator_.GetIntersect. simpl.
  rewrite traverse_null. reflexivity.
Qed.

(** With a record that came with a null primitive pointer, the brute
    force path reports a hit exactly when some primitive is hit strictly
    below both [tMax] and [FLT_MAX]. *)
Lemma bf_hit_iff (s : Scene) (r : Ray) (rec : Intersection) :
  primitive rec = None ->
  fst (Scene_.GetIntersect None s r (Some rec)) = true <->
  exists p d, In p (m_primitiveBuf s) /\ hits r p d /\
              flt d (m_fMax r) = true /\ flt d FLT_MAX = true.
Proof.
  intros Hnull. rewrite bf_record. simpl.
  set (buf := m_primitiveBuf s).
  assert (Hn : is_nan (t (entry rec)) = false) by reflexivity.
  split.
  - intros H. apply andb_true_iff in H as [Hlt Hp].
    destruct (closest_cases r buf (entry rec)) as [E|[p [d [Hin [Hh [Hd E]]]]]].
    + rewrite E in Hp. simpl in Hp. rewrite Hnull in Hp. discriminate.
    + rewrite E in Hlt. simpl in Hlt. exists p, d. auto.
  - intros [p [d [Hin [Hh [Hlt Hmax]]]]].
    destruct (closest_updates r buf (entry rec) p d Hn Hin Hh Hmax)
      as [p' [d' [Hin' [Hh' [Hd' E]]]]].
    pose proof (closest_lower_bound r buf (entry rec) p d Hn Hin Hh) as Hle.
    rewrite E in *. simpl in *. rewrite andb_true_r.
    eapply fle_flt_trans; eauto.
Qed.

(** When the brute force path reports a hit, the record holds a hit of
    one of the primitives, the closest of all. *)
Lemma bf_hit_record (s : Scene) (r : Ray) (rec : Intersection) :
  primitive rec = None ->
  fst (Scene_.GetIntersect None s r (Some rec)) = true ->
  let rec' := closest r (m_primitiveBuf s) (entry rec) in
  (exists p, In p (m_primitiveBuf s) /\ hits r p (t rec') /\ primitive rec' = Some p) /\
  (forall p d, In p (m_primitiveBuf s) -> hits r p d -> fle (t rec') d = true) /\
  fle fzero (t rec') = true /\ flt (t rec') (m_fMax r) = true.
Proof.
  intros Hnull H. rewrite bf_record in H. simpl in H.
  apply andb_true_iff in H as [Hlt Hp]. simpl.
  assert (Hn : is_nan (t (entry rec)) = false) by reflexivity.
  repeat split.
  - destruct (closest_cases r (m_primitiveBuf s) (entry rec))
      as [E|[p [d [Hin [Hh [Hd E]]]]]].
    + rewrite E in Hp. simpl in Hp. rewrite Hnull in Hp. discriminate.
    + rewrite E. simpl. exists p. auto.
  - intros p d Hin Hh. apply closest_lower_bound with (p := p); assumption.
  - destruct (closest_cases r (m_primitiveBuf s) (entry rec))
      as [E|[p [d [Hin [Hh [Hd E]]]]]].
    + rewrite E in Hp. simpl in Hp. rewrite Hnull in Hp. discriminate.
    + rewrite E. simpl. apply (hits_range r p d Hh).
  - exact Hlt.
Qed.

(** Without any hit in range the record stays as it was on entry. *)
Lemma bf_no_hit (s : Scene) (r : Ray) (rec : Intersection) :
  (forall p d, In p (m_primitiveBuf s) -> hits r p d -> False) ->
  closest r (m_primitiveBuf s) (entry rec) = entry rec.
Proof.
  intros Hno.
  destruct (closest_cases r (m_primitiveBuf s) (entry rec))
    as [E|[p [d [Hin [Hh _]]]]]; [exact E|].
  destruct (Hno p d Hin Hh).
Qed.

(** C2 (as amended). With a hit record whose primitive pointer is null on
    entry, the brute force path of [GetIntersect] returns true exactly
    when some primitive meets the ray at a distance in [[0, tMax]] that is
    strictly below both [tMax] and [FLT_MAX]. The distance it then
    reports lies in [[0, tMax]] (strictly below [tMax]), is the distance
    of the primitive it records, and is at most the distance of every
    primitive that meets the ray in range. When no primitive meets the
    ray in range it returns false and the record's distance is
    [FLT_MAX]. *)
Theorem bf_closest_hit (s : Scene) (r : Ray) (rec : Intersection) :
  primitive rec = None ->
  exists rec',
    snd (Scene_.GetIntersect None s r (Some rec)) = Some rec' /\
    (fst (Scene_.GetIntersect None s r (Some rec)) = true <->
     exists p d, In p (m_primitiveBuf s) /\ hits r p d /\
                 flt d (m_fMax r) = true /\ flt d FLT_MAX = true) /\
    (fst (Scene_.GetIntersect None s r (Some rec)) = true ->
     fle fzero (t rec') = true /\ fle (t rec') (m_fMax r) = true /\
     flt (t rec') (m_fMax r) = true /\
     (exists p, In p (m_primitiveBuf s) /\ hits r p (t rec') /\
                primitive rec' = Some p) /\
     (forall p d, In p (m_primitiveBuf s) -> hits r p d -> fle (t rec') d = true)) /\
    ((forall p d, In p (m_primitiveBuf s) -> hits r p d -> False) ->
     fst (Scene_.GetIntersect None s r (Some rec)) = false /\
     rec' = {| t := FLT_MAX; primitive := None |}).
Proof.
  intros Hnull.
  exists (closest r (m_primitiveBuf s) (entry rec)).
  split; [rewrite bf_record; reflexivity|].
  split; [apply bf_hit_iff, Hnull|].
  split.
  - intros H. destruct (bf_hit_record s r rec Hnull H) as [Hp [Hmin [H0 Hlt]]].
    repeat split; auto. apply flt_fle, Hlt.
  - intros Hno. rewrite bf_record. simpl.
    rewrite (bf_no_hit s r rec Hno). unfold entry. simpl. rewrite Hnull. simpl.
    rewrite andb_false_r. auto.
Qed.

(** C2, at a scene of three primitives at distances 3, 2 and 5 and a ray
    valid up to 5: the hit reported is the one at distance 2. *)
Lemma bf_closest_hit_witness :
  primitive fresh = None /\
  exists rec',
    snd (Scene_.GetIntersect None (scene_of [tri f3 0; tri f2 1; tri f5 2] [])
           (ray_to f5) (Some fresh)) = Some rec' /\
    t rec' = f2.
Proof.
  split; [reflexivity|].
  destruct (bf_closest_hit (scene_of [tri f3 0; tri f2 1; tri f5 2] [])
              (ray_to f5) fresh eq_refl) as [rec' [Hsnd _]].
  exists rec'. split; [exact Hsnd|].
  vm_compute in Hsnd. inversion Hsnd. reflexivity.
Defined.

(** C2 as stated fails at the end of the range: a primitive met at
    distance 2 by a ray valid up to 2 intersects it within [[0, tMax]],
    yet the brute force path returns false, and the record's distance is
    2, not [FLT_MAX]. It also fails for a record that carries a stale
    primitive pointer: on an empty scene a ray with an infinite [tMax]
    is reported as a hit. *)
Lemma bf_closest_hit_counterexample :
  (reports (ray_to f2) (tri f2 0) = true /\
   fst (Scene_.GetIntersect None (scene_of [tri f2 0] []) (ray_to f2) (Some fresh)) = false /\
   option_map t (snd (Scene_.GetIntersect None (scene_of [tri f2 0] []) (ray_to f2)
                        (Some fresh))) = Some f2) /\
  fst (Scene_.GetIntersect None (scene_of [] []) (ray_to finf)
         (Some {| t := fzero; primitive := Some (tri f2 0) |})) = true.
Proof. vm_compute. auto. Qed.

(** C3. Without a hit record the brute force path of [GetIntersect]
    returns true if some primitive of the buffer reports an intersection
    with the ray and false if none does; it returns as soon as one
    primitive has reported, whatever primitives follow it in the buffer. *)
Theorem shadow_ray_any_hit (s : Scene) (r : Ray) :
  Scene_.GetIntersect None s r None = (existsb (reports r) (m_primitiveBuf s), None) /\
  (fst (Scene_.GetIntersect None s r None) = true <->
   exists p, In p (m_primitiveBuf s) /\ fst (Triangle_.GetIntersect p r None) = true) /\
  (forall front p back,
     m_primitiveBuf s = front ++ p :: back ->
     fst (Triangle_.GetIntersect p r None) = true ->
     Scene_.bf_loop (m_primitiveBuf s) r None = Scene_.bf_loop (front ++ [p]) r None /\
     Scene_.GetIntersect None s r None = (true, None)).
Proof.
  split; [apply bf_null|]. split.
  - rewrite bf_null. simpl. rewrite existsb_exists. reflexivity.
  - intros front p back E Hp. rewrite bf_null, E, !bf_loop_null.
    assert (Hr : reports r p = true) by exact Hp.
    rewrite !existsb_app. simpl. rewrite Hr. simpl.
    rewrite !orb_true_r. auto.
Qed.

(** The final distance never depends on what the caller left in the
    record; the recorded primitive does not either, once a primitive is
    hit strictly below [FLT_MAX]. *)
Lemma closest_entry_prior (r : Ray) (buf : list Primitive) (rec1 rec2 : Intersection) :
  t (closest r buf (entry rec1)) = t (closest r buf (entry rec2)) /\
  ((exists p d, In p buf /\ hits r p d /\ flt d FLT_MAX = true) ->
   closest r buf (entry rec1) = closest r buf (entry rec2)).
Proof.
  split; [apply closest_prior_t; reflexivity|].
  intros [p [d [Hin [Hh Hlt]]]].
  destruct (closest_prior r buf (entry rec1) (entry rec2) eq_refl) as [[E1 E2]|E];
    [|exact E].
  exfalso.
  pose proof (closest_lower_bound r buf (entry rec1) p d eq_refl Hin Hh) as Hle.
  rewrite E1 in Hle. simpl in Hle. apply fle_not_flt in Hle. congruence.
Qed.

(** What of the result is independent of the record's prior contents:
    the final distance always, and on the brute force path the value
    returned for every ray whose range ends at or below [FLT_MAX]. The
    primitive pointer is not: when nothing is hit below [FLT_MAX] the
    record ends with the pointer it came with. *)
Lemma prior_contents_independent (accel : option Accelerator) (s : Scene) (r : Ray)
    (rec1 rec2 : Intersection) :
  option_map t (snd (Scene_.GetIntersect accel s r (Some rec1)))
  = option_map t (snd (Scene_.GetIntersect accel s r (Some rec2))) /\
  (fle (m_fMax r) FLT_MAX = true ->
   fst (Scene_.GetIntersect None s r (Some rec1))
   = fst (Scene_.GetIntersect None s r (Some rec2))) /\
  ((forall p d, In p (m_primitiveBuf s) -> hits r p d -> flt d FLT_MAX = false) ->
   option_map primitive (snd (Scene_.GetIntersect None s r (Some rec1)))
   = Some (primitive rec1)).
Proof.
  repeat split.
  - destruct accel as [a|]; rewrite ?accel_record, ?bf_record; simpl; f_equal;
      apply closest_entry_prior.
  - intros Hmax. rewrite !bf_record. simpl.
    destruct (closest_prior r (m_primitiveBuf s) (entry rec1) (entry rec2) eq_refl)
      as [[E1 E2]|E]; [|rewrite E; reflexivity].
    rewrite E1, E2. simpl. rewrite (fle_not_flt _ _ Hmax). reflexivity.
  - intros Hno. rewrite bf_record. simpl. f_equal.
    destruct (closest_cases r (m_primitiveBuf s) (entry rec1))
      as [E|[p [d [Hin [Hh [Hlt _]]]]]]; [rewrite E; reflexivity|].
    simpl in Hlt. rewrite (Hno p d Hin Hh) in Hlt. discriminate.
Qed.

(** C10, the code at records that came with different primitive
    pointers. [GetIntersect] resets the record's distance on entry, not
    its primitive pointer, which the brute force path reads in the value
    it returns. On a scene without primitives, a record that came with a
    null pointer and one that came with a stale pointer end with
    different pointers for a ray valid up to 5, both calls returning
    false; for a ray with an infinite [tMax] the two calls also return
    different values. *)
Theorem GetIntersect_stale_pointer :
  (Scene_.GetIntersect None (scene_of [] []) (ray_to f5)
     (Some {| t := fzero; primitive := None |})
   = (false, Some {| t := FLT_MAX; primitive := None |}) /\
   Scene_.GetIntersect None (scene_of [] []) (ray_to f5)
     (Some {| t := fzero; primitive := Some (tri f2 0) |})
   = (false, Some {| t := FLT_MAX; primitive := Some (tri f2 0) |})) /\
  (Scene_.GetIntersect None (scene_of [] []) (ray_to finf)
     (Some {| t := fzero; primitive := None |})
   = (false, Some {| t := FLT_MAX; primitive := None |}) /\
   Scene_.GetIntersect None (scene_of [] []) (ray_to finf)
     (Some {| t := fzero; primitive := Some (tri f2 0) |})
   = (true, Some {| t := FLT_MAX; primitive := Some (tri f2 0) |})).
Proof. repeat split; reflexivity. Qed.

(** C8 (as amended). On the brute force path, permuting the primitive
    buffer changes neither the value [GetIntersect] returns nor, with a
    hit record, the final hit distance. The primitive recorded is the
    same, at the same distance, when no two primitives are met at the
    final distance. Of several primitives met at the closest distance
    the first in buffer order is recorded: every primitive before the
    recorded one is met strictly farther. *)
Theorem bf_order_irrelevant (s s' : Scene) (r : Ray) (intersect : option Intersection) :
  Permutation (m_primitiveBuf s) (m_primitiveBuf s') ->
  fst (Scene_.GetIntersect None s r intersect) = fst (Scene_.GetIntersect None s' r intersect) /\
  same_distance (snd (Scene_.GetIntersect None s r intersect))
                (snd (Scene_.GetIntersect None s' r intersect)) /\
  (forall rec1 rec2,
     snd (Scene_.GetIntersect None s r intersect) = Some rec1 ->
     snd (Scene_.GetIntersect None s' r intersect) = Some rec2 ->
     (forall p q d d',
        In p (m_primitiveBuf s) -> In q (m_primitiveBuf s) ->
        hits r p d -> hits r q d' ->
        feq d (t rec1) = true -> feq d' (t rec1) = true -> p = q) ->
     primitive rec1 = primitive rec2 /\ t rec1 = t rec2) /\
  (forall rec1,
     snd (Scene_.GetIntersect None s r intersect) = Some rec1 ->
     flt (t rec1) FLT_MAX = true ->
     exists front p back,
       m_primitiveBuf s = front ++ p :: back /\
       primitive rec1 = Some p /\
       hits r p (t rec1) /\
       (forall q d, In q front -> hits r q d -> flt (t rec1) d = true)).
Proof.
  intros HP. destruct intersect as [rec|].
  - rewrite !bf_record. simpl.
    destruct (closest_permutation r _ _ (entry rec) HP eq_refl) as [Ht Hp].
    rewrite Hp, (feq_flt_l _ _ _ Ht).
    split; [reflexivity|]. split; [exact Ht|]. split.
    + intros rec1 rec2 E1 E2 Huniq.
      inversion E1 as [E1']. inversion E2 as [E2']. rewrite <- E1' in Huniq.
      rewrite (closest_permutation_unique r _ _ (entry rec) HP eq_refl Huniq).
      auto.
    + intros rec1 E1 Hlt. inversion E1 as [E1']. rewrite <- E1' in Hlt.
      destruct (closest_first r (m_primitiveBuf s) (entry rec) eq_refl)
        as [E|[front [p [back [Ebuf [Hprim [Hh [_ Hfront]]]]]]]].
      * rewrite E in Hlt. discriminate.
      * exists front, p, back. auto.
  - rewrite !bf_null. simpl.
    split; [apply existsb_reports_permutation, HP|]. split; [exact I|].
    split; intros; discriminate.
Qed.

(** C8, at two primitives at distances 3 and 2 in both orders. *)
Lemma bf_order_irrelevant_witness :
  Permutation [tri f3 0; tri f2 1] [tri f2 1; tri f3 0] /\
  fst (Scene_.GetIntersect None (scene_of [tri f3 0; tri f2 1] []) (ray_to f5) (Some fresh))
  = fst (Scene_.GetIntersect None (scene_of [tri f2 1; tri f3 0] []) (ray_to f5) (Some fresh)).
Proof.
  split; [apply perm_swap|].
  exact (proj1 (bf_order_irrelevant (scene_of [tri f3 0; tri f2 1] [])
                  (scene_of [tri f2 1; tri f3 0] []) (ray_to f5) (Some fresh)
                  (perm_swap _ _ _))).
Defined.

(** C8 as stated fails for the primitive: two triangles met at the same
    distance 2 are recorded according to their order in the buffer. *)
Lemma bf_order_irrelevant_counterexample :
  Permutation [tri f2 0; tri f2 1] [tri f2 1; tri f2 0] /\
  snd (Scene_.GetIntersect None (scene_of [tri f2 0; tri f2 1] []) (ray_to f5) (Some fresh))
  = Some {| t := f2; primitive := Some (tri f2 0) |} /\
  snd (Scene_.GetIntersect None (scene_of [tri f2 1; tri f2 0] []) (ray_to f5) (Some fresh))
  = Some {| t := f2; primitive := Some (tri f2 1) |} /\
  m_id (tri f2 0) = 0%N /\ m_id (tri f2 1) = 1%N.
Proof. split; [apply perm_swap|]. repeat split; reflexivity. Qed.

Lemma existsb_reports_hits (r : Ray) (buf : list Primitive) :
  existsb (reports r) buf = true <-> exists p d, In p buf /\ hits r p d.
Proof.
  rewrite existsb_exists. split.
  - intros [p [Hin Hp]]. apply reports_hits in Hp as [d Hd]. eauto.
  - intros [p [d [Hin Hd]]]. exists p. split; [exact Hin|].
    apply reports_hits. eauto.
Qed.

End Intersect.

(** ** Loops over arrays *)

Section ForLoop.

Context {S : Type}.
Variable body : nat -> S -> S.
Variable P : nat -> S -> Prop.

(** A loop invariant holds when the loop ends. *)
Lemma for_loop_invariant (n from : nat) (s : S) :
  P from s ->
  (forall i s', (from <= i < from + n)%nat -> P i s' -> P (Datatypes.S i) (body i s')) ->
  P (from + n)%nat (for_loop body from n s).
Proof.
  revert from s. induction n as [|n IH]; intros from s H0 Hstep; simpl.
  - rewrite Nat.add_0_r. exact H0.
  - replace (from + Datatypes.S n)%nat with (Datatypes.S from + n)%nat by lia.
    apply IH.
    + apply Hstep; [lia|exact H0].
    + intros i s' Hi. apply Hstep. lia.
Qed.

End ForLoop.

(** ** Scene::_genLightDistribution and Scene::SampleLight *)

Module LightSampling.

Import Sample.

(** The first loop fills [pdf] with the powers of the lights. *)
Lemma pdf_loop (lights : list Light) :
  for_loop (fun i pdf => <[i := power_intensity (lights !!! i)]> pdf) O (length lights)
    (replicate (length lights) fzero)
  = powers lights.
Proof.
  set (count := length lights).
  pose proof (for_loop_invariant
    (fun i pdf => <[i := power_intensity (lights !!! i)]> pdf)
    (fun i (pdf : list float) =>
       length pdf = count /\
       forall j, (j < i)%nat -> pdf !! j = Some (power_intensity (lights !!! j)))
    count O (replicate count fzero)) as H.
  simpl in H. destruct H as [Hlen Hget].
  - split; [apply length_replicate|]. intros j Hj. lia.
  - intros i pdf Hi [Hlen Hget]. split; [rewrite length_insert; exact Hlen|].
    intros j Hj. destruct (decide (j = i)) as [->|Hne].
    + apply list_lookup_insert_eq. lia.
    + rewrite list_lookup_insert_ne by congruence. apply Hget. lia.
  - apply list_eq. intros j. unfold powers. rewrite list_lookup_fmap.
    destruct (decide (j < count)%nat) as [Hj|Hj].
    + rewrite (Hget j Hj).
      destruct (lookup_lt_is_Some_2 lights j Hj) as [l Hl].
      rewrite Hl. simpl. rewrite (list_lookup_total_correct _ _ _ Hl). reflexivity.
    + rewrite (lookup_ge_None_2 lights j) by (fold count; lia).
      apply lookup_ge_None_2. lia.
Qed.

(** The second loop adds the cells of [pdf] up, from left to right. *)
Lemma total_loop (pdf : list float) (count : nat) :
  count = length pdf ->
  for_loop (fun i total_pdf => fadd total_pdf (pdf !!! i)) O count fzero
  = fsum pdf.
Proof.
  intros ->.
  pose proof (for_loop_invariant
    (fun i total_pdf => fadd total_pdf (pdf !!! i))
    (fun i total_pdf => total_pdf = fsum (take i pdf))
    (length pdf) O fzero) as H.
  simpl in H. rewrite H.
  - rewrite take_ge by lia. reflexivity.
  - reflexivity.
  - intros i tot Hi ->.
    destruct (lookup_lt_is_Some_2 pdf i) as [x Hx]; [lia|].
    rewrite (take_S_r _ _ _ Hx), (list_lookup_total_correct _ _ _ Hx).
    unfold fsum. rewrite fold_left_app. reflexivity.
Qed.

(** The third loop stores a pick probability in every light. *)
Lemma pick_loop (lights : list Light) (pdf : list float) (total_pdf : float) :
  for_loop (fun i ls => alter (SetPickPDF (fdiv (pdf !!! i) total_pdf)) i ls)
    O (length lights) lights
  = imap (fun i l => SetPickPDF (fdiv (pdf !!! i) total_pdf) l) lights.
Proof.
  set (count := length lights).
  pose proof (for_loop_invariant
    (fun i ls => alter (SetPickPDF (fdiv (pdf !!! i) total_pdf)) i ls)
    (fun i (ls : list Light) =>
       forall j, ls !! j =
                 if decide (j < i)%nat
                 then SetPickPDF (fdiv (pdf !!! j) total_pdf) <$> lights !! j
                 else lights !! j)
    count O lights) as H.
  simpl in H. apply list_eq. intros j. rewrite H.
  - rewrite list_lookup_imap. destruct (decide (j < count)%nat) as [Hj|Hj].
    + destruct (lights !! j); reflexivity.
    + rewrite (lookup_ge_None_2 lights j) by (fold count; lia). reflexivity.
  - intros j'. destruct (decide (j' < 0)%nat); [lia|reflexivity].
  - intros i ls Hi Hinv j'. destruct (decide (j' = i)) as [->|Hne].
    + rewrite list_lookup_alter_eq, Hinv.
      destruct (decide (i < i)%nat); [lia|].
      destruct (decide (i < Datatypes.S i)%nat); [reflexivity|lia].
    + rewrite list_lookup_alter_ne by congruence. rewrite Hinv.
      destruct (decide (j' < i)%nat), (decide (j' < Datatypes.S i)%nat);
        try reflexivity; lia.
Qed.

(** [_genLightDistribution] in closed form. *)
Lemma genLightDistribution_eq (s : Scene) :
  m_lights s <> [] ->
  Scene_._genLightDistribution s =
  {| m_primitiveBuf := m_primitiveBuf s;
     m_lights := map (fun l => SetPickPDF (fdiv (power_intensity l)
                                             (fsum (powers (m_lights s)))) l)
                     (m_lights s);
     m_BBox := m_BBox s;
     m_lightsDis := Some (Distribution1D_.build (powers (m_lights s))
                            (length (m_lights s))) |}.
Proof.
  intros Hne. unfold Scene_._genLightDistribution.
  destruct (Nat.eqb_spec (length (m_lights s)) 0) as [E|_].
  - destruct (m_lights s); [congruence|discriminate].
  - rewrite pdf_loop.
    rewrite (total_loop (powers (m_lights s)) (length (m_lights s)))
      by (symmetry; apply length_map).
    rewrite pick_loop. f_equal.
    apply list_eq. intros j. rewrite list_lookup_imap, list_lookup_fmap.
    destruct (m_lights s !! j) as [l|] eqn:Hl; [|reflexivity]. simpl.
    assert (Hp : powers (m_lights s) !! j = Some (power_intensity l)).
    { unfold powers. rewrite list_lookup_fmap, Hl. reflexivity. }
    rewrite (list_lookup_total_correct _ _ _ Hp). reflexivity.
Qed.

(** What [_genLightDistribution] stores in light [i]: the quotient, as
    the code computes it, of the light's power by the binary32 sum of all
    powers taken from left to right. The power itself is unchanged. *)
Lemma pick_probability (s : Scene) (i : nat) (l : Light) :
  m_lights s !! i = Some l ->
  exists l',
    m_lights (Scene_._genLightDistribution s) !! i = Some l' /\
    power_intensity l' = power_intensity l /\
    pickPDF l' = fdiv (power_intensity l) (fsum (powers (m_lights s))).
Proof.
  intros Hl.
  assert (Hne : m_lights s <> []).
  { intros E. rewrite E in Hl. discriminate. }
  rewrite (genLightDistribution_eq s Hne). simpl.
  rewrite list_lookup_fmap, Hl. simpl. eexists. split; [reflexivity|].
  split; reflexivity.
Qed.

(** The scenario of two lights of powers 1 and 3: probabilities 0.25 and
    0.75; [u = 0.1] picks light 0 and [u = 0.5] picks light 1. *)
Example two_lights_scenario :
  map pickPDF (m_lights (Scene_._genLightDistribution (scene_of [] [light fone; light f3])))
  = [S754_finite false 8388608 (-25); S754_finite false 12582912 (-24)] /\
  Scene_.SampleLight true (Scene_._genLightDistribution (scene_of [] [light fone; light f3]))
    tenth (Some fzero)
  = Returned (Some {| power_intensity := fone; pickPDF := S754_finite false 8388608 (-25) |},
              Some (S754_finite false 8388608 (-25))) /\
  Scene_.SampleLight true (Scene_._genLightDistribution (scene_of [] [light fone; light f3]))
    half (Some fzero)
  = Returned (Some {| power_intensity := f3; pickPDF := S754_finite false 12582912 (-24) |},
              Some (S754_finite false 12582912 (-24))).
Proof. vm_compute. auto. Qed.

(** C5 (as amended). With no light in the scene [_genLightDistribution]
    returns at once and builds no distribution, and [SampleLight] does
    not return a null light: in a debug build it stops at its assertion
    "No light in the scene."; in a build without assertions it
    dereferences the null distribution. *)
Theorem SampleLight_no_lights (debug : bool) (s : Scene) (u : float) (pdf : option float) :
  m_lights s = [] -> m_lightsDis s = None ->
  fle fzero u && fle u fone = true ->
  Scene_._genLightDistribution s = s /\
  Scene_.SampleLight debug (Scene_._genLightDistribution s) u pdf
  = if debug then AssertionFailed LOG_SAMPLING "No light in the scene."
    else NullDereference.
Proof.
  intros Hl Hd Hu.
  assert (E : Scene_._genLightDistribution s = s).
  { unfold Scene_._genLightDistribution. rewrite Hl. reflexivity. }
  split; [exact E|]. rewrite E.
  unfold Scene_.SampleLight, sAssert, sAssertMsg. rewrite Hu, Hd.
  destruct debug; reflexivity.
Qed.

(** C5, at the empty scene and [u = 0.5]. *)
Lemma SampleLight_no_lights_witness :
  (m_lights (scene_of [] []) = [] /\ m_lightsDis (scene_of [] []) = None /\
   fle fzero half && fle half fone = true) /\
  Scene_.SampleLight true (Scene_._genLightDistribution (scene_of [] [])) half None
  = AssertionFailed LOG_SAMPLING "No light in the scene.".
Proof.
  split; [repeat split|].
  exact (proj2 (SampleLight_no_lights true (scene_of [] []) half None
                  eq_refl eq_refl eq_refl)).
Defined.

(** C5 as stated fails: on the empty scene [SampleLight(0.5)] ends in
    the failed assertion, or in a null dereference when assertions are
    compiled out, and in neither build returns a null light. *)
Lemma SampleLight_no_lights_counterexample :
  Scene_.SampleLight true (Scene_._genLightDistribution (scene_of [] [])) half None
  = AssertionFailed LOG_SAMPLING "No light in the scene." /\
  Scene_.SampleLight false (Scene_._genLightDistribution (scene_of [] [])) half None
  = NullDereference.
Proof. split; reflexivity. Qed.

(** With a total power of zero no light gets a probability: what is
    stored is a NaN (for a power of 0) or an infinity. *)
Lemma zero_total_pick_not_finite (s : Scene) (i : nat) (l' : Light) :
  feq (fsum (powers (m_lights s))) fzero = true ->
  m_lights (Scene_._genLightDistribution s) !! i = Some l' ->
  pickPDF l' = S754_nan \/ exists sg, pickPDF l' = S754_infinity sg.
Proof.
  intros Hz Hl'.
  assert (Hne : m_lights s <> []).
  { intros E. unfold Scene_._genLightDistribution in Hl'. rewrite E in Hl'.
    simpl in Hl'. rewrite E in Hl'. discriminate. }
  rewrite (genLightDistribution_eq s Hne) in Hl'.
  remember (fsum (powers (m_lights s))) as total eqn:Et. clear Et.
  cbn [m_lights] in Hl'. rewrite list_lookup_fmap in Hl'.
  destruct (m_lights s !! i) as [l|]; [|discriminate].
  inversion Hl'. subst l'. cbn [pickPDF SetPickPDF].
  destruct total as [sz|[]| |[] mf ef]; try discriminate.
  destruct (power_intensity l) as [sx|sx| |sx mx ex]; simpl; eauto.
Qed.

(** C6, the code at a single light of power 0. The total power is 0
    and the division by it is not guarded: the pick probability stored
    in the light is [0.0f / 0.0f], a NaN. The distribution built from the
    same weights is empty, and [SampleLight] returns a null light and
    leaves what [pdf] points to as it was. *)
Theorem zero_total_power_pick_is_nan :
  fsum (powers [light fzero]) = fzero /\
  map pickPDF (m_lights (Scene_._genLightDistribution (scene_of [] [light fzero])))
  = [S754_nan] /\
  Scene_.SampleLight true (Scene_._genLightDistribution (scene_of [] [light fzero]))
    half (Some fone)
  = Returned (None, Some fone).
Proof. vm_compute. auto. Qed.

End LightSampling.

(** ** binary32 division and summation *)

Module Float32Arith.

(** A finite number divided by itself is exactly 1. *)
Lemma fdiv_self (s : bool) (m : positive) (e : Z) :
  fdiv (S754_finite s m e) (S754_finite s m e) = fone.
Proof.
  unfold fdiv, SFdiv, SFdiv_core_binary. rewrite xorb_nilpotent.
  rewrite !Z.sub_diag.
  change (Z.min (fexp prec emax 0) 0) with (-24).
  change (0 - -24) with 24.
  rewrite Z.shiftl_mul_pow2 by lia.
  destruct (Z.div_eucl (Z.pos m * 2 ^ 24) (Z.pos m)) as [q r] eqn:E.
  assert (Hq : q = 2 ^ 24).
  { change q with (fst (q, r)). rewrite <- E.
    change (fst (Z.div_eucl (Z.pos m * 2 ^ 24) (Z.pos m)))
      with (Z.pos m * 2 ^ 24 / Z.pos m).
    rewrite Z.mul_comm. apply Z.div_mul. lia. }
  assert (Hr : r = 0).
  { change r with (snd (q, r)). rewrite <- E.
    change (snd (Z.div_eucl (Z.pos m * 2 ^ 24) (Z.pos m)))
      with ((Z.pos m * 2 ^ 24) mod Z.pos m).
    rewrite Z.mul_comm. apply Z.mod_mul. lia. }
  subst q r. unfold new_location.
  destruct (Z.even (Z.pos m)); reflexivity.
Qed.

(** Right shifts and rounding keep a mantissa non-negative. *)
Lemma shr_1_nonneg (mrs : shr_record) : 0 <= shr_m mrs -> 0 <= shr_m (shr_1 mrs).
Proof.
  destruct mrs as [m r s]. simpl.
  destruct m as [|p|p]; [| |lia]; intros _.
  - simpl. lia.
  - destruct p; simpl; lia.
Qed.

Lemma iter_pos_shr_1_nonneg (p : positive) (mrs : shr_record) :
  0 <= shr_m mrs -> 0 <= shr_m (SpecFloat.iter_pos shr_1 p mrs).
Proof.
  revert mrs. induction p as [p IH|p IH|]; intros mrs H; simpl.
  - apply IH, IH, shr_1_nonneg, H.
  - apply IH, IH, H.
  - apply shr_1_nonneg, H.
Qed.

Lemma shr_fexp_nonneg (m e : Z) (l : location) :
  0 <= m -> 0 <= shr_m (fst (shr_fexp prec emax m e l)).
Proof.
  intros H. unfold shr_fexp, shr.
  assert (H0 : 0 <= shr_m (shr_record_of_loc m l)).
  { destruct l as [|[]]; exact H. }
  destruct (fexp prec emax (Zdigits2 m + e) - e); simpl; auto.
  apply iter_pos_shr_1_nonneg, H0.
Qed.

Lemma round_nearest_even_nonneg (m : Z) (l : location) :
  0 <= m -> 0 <= round_nearest_even m l.
Proof.
  intros H. unfold round_nearest_even.
  destruct l as [|[]]; try destruct (Z.even m); lia.
Qed.

(** Rounding a non-negative mantissa with a positive sign gives a
    number that is not below zero. *)
Lemma binary_round_aux_nonneg (m e : Z) (l : location) :
  0 <= m -> fle fzero (binary_round_aux prec emax false m e l) = true.
Proof.
  intros H. unfold binary_round_aux.
  pose proof (shr_fexp_nonneg m e l H) as H1.
  destruct (shr_fexp prec emax m e l) as [mrs' e']. simpl in H1.
  pose proof (shr_fexp_nonneg
                (round_nearest_even (shr_m mrs') (loc_of_shr_record mrs')) e' loc_Exact
                (round_nearest_even_nonneg _ _ H1)) as H2.
  destruct (shr_fexp prec emax
              (round_nearest_even (shr_m mrs') (loc_of_shr_record mrs')) e' loc_Exact)
    as [mrs'' e'']. simpl in H2.
  destruct (shr_m mrs'') as [|p|p]; [reflexivity| |lia].
  destruct (e'' <=? emax - prec); reflexivity.
Qed.

(** Rounding a non-negative mantissa never gives a NaN. *)
Lemma binary_round_aux_number (sx : bool) (m e : Z) (l : location) :
  0 <= m -> is_nan (binary_round_aux prec emax sx m e l) = false.
Proof.
  intros H. unfold binary_round_aux.
  pose proof (shr_fexp_nonneg m e l H) as H1.
  destruct (shr_fexp prec emax m e l) as [mrs' e']. simpl in H1.
  pose proof (shr_fexp_nonneg
                (round_nearest_even (shr_m mrs') (loc_of_shr_record mrs')) e' loc_Exact
                (round_nearest_even_nonneg _ _ H1)) as H2.
  destruct (shr_fexp prec emax
              (round_nearest_even (shr_m mrs') (loc_of_shr_record mrs')) e' loc_Exact)
    as [mrs'' e'']. simpl in H2.
  destruct (shr_m mrs'') as [|p|p]; [reflexivity| |lia].
  destruct (e'' <=? emax - prec); reflexivity.
Qed.

(** The integer quotient the division rounds is not negative. *)
Lemma SFdiv_core_nonneg (mx : positive) (ex : Z) (m : positive) (e : Z) :
  0 <= fst (fst (SFdiv_core_binary prec emax (Z.pos mx) ex (Z.pos m) e)).
Proof.
  unfold SFdiv_core_binary.
  set (sh := ex - e - Z.min (fexp prec emax (Zdigits2 (Z.pos mx) + ex - (Zdigits2 (Z.pos m) + e))) (ex - e)).
  set (m' := match sh with Z.pos _ => Z.shiftl (Z.pos mx) sh | 0 => Z.pos mx | Z.neg _ => 0 end).
  assert (Hm' : 0 <= m').
  { unfold m'. destruct sh; try lia. apply Z.shiftl_nonneg. lia. }
  destruct (Z.div_eucl m' (Z.pos m)) as [q r] eqn:Ed. cbn [fst].
  change q with (fst (q, r)). rewrite <- Ed.
  change (fst (Z.div_eucl m' (Z.pos m))) with (m' / Z.pos m).
  apply Z.div_pos; lia.
Qed.

(** The quotient of a number that is not negative by a positive finite
    number is a number that is not below zero. *)
Lemma fdiv_nonneg (x : float) (m : positive) (e : Z) :
  (exists s, x = S754_zero s) \/ (exists mx ex, x = S754_finite false mx ex) ->
  fle fzero (fdiv x (S754_finite false m e)) = true.
Proof.
  intros [[s ->]|[mx [ex ->]]].
  - destruct s; reflexivity.
  - unfold fdiv, SFdiv.
    pose proof (SFdiv_core_nonneg mx ex m e) as Hq.
    destruct (SFdiv_core_binary prec emax (Z.pos mx) ex (Z.pos m) e) as [[mz ez] lz].
    apply binary_round_aux_nonneg. exact Hq.
Qed.

(** The quotient of a number by a finite number other than zero is a
    number: dividing by it makes no NaN. *)
Lemma fdiv_number (x : float) (s : bool) (m : positive) (e : Z) :
  is_nan x = false -> is_nan (fdiv x (S754_finite s m e)) = false.
Proof.
  destruct x as [sx|sx| |sx mx ex]; try reflexivity; [discriminate|]. intros _.
  unfold fdiv, SFdiv.
  pose proof (SFdiv_core_nonneg mx ex m e) as Hq.
  destruct (SFdiv_core_binary prec emax (Z.pos mx) ex (Z.pos m) e) as [[mz ez] lz].
  apply binary_round_aux_number. exact Hq.
Qed.


(** A sum is finite only if both terms are: what is not finite stays in
    a running sum. *)
Lemma fadd_is_finite (x w : float) :
  is_finite (fadd x w) = true -> is_finite x = true /\ is_finite w = true.
Proof.
  destruct x as [sx|sx| |sx mx ex], w as [sw|sw| |sw mw ew];
    unfold fadd, SFadd; cbn [is_finite]; intros H; try discriminate H; auto.
  destruct sx, sw; discriminate H.
Qed.

Lemma fold_fadd_is_finite (ws : list float) (acc : float) :
  is_finite (fold_left fadd ws acc) = true ->
  is_finite acc = true /\ Forall (fun w => is_finite w = true) ws.
Proof.
  revert acc. induction ws as [|w ws IH]; intros acc H; simpl in H.
  - split; [exact H|constructor].
  - destruct (IH _ H) as [Hacc Hws]. apply fadd_is_finite in Hacc as [Ha Hw].
    split; [exact Ha|constructor; assumption].
Qed.

(** A positive finite number is a finite value of positive sign. *)
Lemma positive_finite (x : float) :
  flt fzero x = true -> flt x finf = true -> exists m e, x = S754_finite false m e.
Proof.
  destruct x as [s|[]| |[] m e]; try discriminate; intros _ _; eauto.
Qed.

End Float32Arith.

(** ** The pick probabilities *)

Module PickProbability.

Import Sample LightSampling Float32Arith.

(** C4 (as amended). When the total power, as the code adds it up
    (binary32, from left to right), is a finite number other than zero,
    [_genLightDistribution] stores in every light [i] its power divided
    by that total, correctly rounded to binary32, and leaves the power
    as it was. Every power is then a finite number and the value stored
    is a number, never a NaN; it is exactly 1 for a light that holds the
    whole total and zero for a light of power zero. *)
Theorem pick_probability_finite_total (s : Scene) (i : nat) (l : Light) :
  finite_nonzero (fsum (powers (m_lights s))) = true ->
  m_lights s !! i = Some l ->
  exists l',
    m_lights (Scene_._genLightDistribution s) !! i = Some l' /\
    power_intensity l' = power_intensity l /\
    pickPDF l' = fdiv (power_intensity l) (fsum (powers (m_lights s))) /\
    is_finite (power_intensity l) = true /\
    is_nan (pickPDF l') = false /\
    (power_intensity l = fsum (powers (m_lights s)) -> pickPDF l' = fone) /\
    (feq (power_intensity l) fzero = true -> feq (pickPDF l') fzero = true).
Proof.
  intros Hfin Hl.
  destruct (pick_probability s i l Hl) as [l' [Hl' [Hpow Hpick]]].
  exists l'. split; [exact Hl'|]. split; [exact Hpow|]. split; [exact Hpick|].
  assert (Hp : is_finite (power_intensity l) = true).
  { assert (Hsum : is_finite (fsum (powers (m_lights s))) = true).
    { destruct (fsum (powers (m_lights s))); try discriminate; reflexivity. }
    apply fold_fadd_is_finite in Hsum as [_ Hall].
    rewrite Forall_forall in Hall. apply Hall.
    unfold powers. apply (list_elem_of_fmap_2 power_intensity).
    eapply list_elem_of_lookup_2. exact Hl. }
  split; [exact Hp|].
  rewrite Hpick.
  destruct (fsum (powers (m_lights s))) as [| | |sg m e]; try discriminate.
  split; [|split].
  - apply fdiv_number. destruct (power_intensity l); try discriminate; reflexivity.
  - intros ->. apply fdiv_self.
  - destruct (power_intensity l) as [sz|[]| |[] mp ep]; try discriminate.
    intros _. destruct sz, sg; reflexivity.
Qed.

(** C4, at two lights of powers 1 and 3, of total 4: the second is
    picked with probability 0.75. *)
Lemma pick_probability_finite_total_witness :
  (finite_nonzero (fsum (powers (m_lights (scene_of [] [light fone; light f3])))) = true /\
   m_lights (scene_of [] [light fone; light f3]) !! 1%nat = Some (light f3)) /\
  exists l',
    m_lights (Scene_._genLightDistribution (scene_of [] [light fone; light f3])) !! 1%nat
    = Some l' /\
    pickPDF l' = S754_finite false 12582912 (-24).
Proof.
  split; [split; reflexivity|].
  destruct (pick_probability_finite_total (scene_of [] [light fone; light f3]) 1 (light f3)
              eq_refl eq_refl) as [l' [Hl' [_ [Hp _]]]].
  exists l'. split; [exact Hl'|]. rewrite Hp. reflexivity.
Defined.

(** C4 as stated fails when the sum of the powers overflows: two lights
    of power [FLT_MAX] each hold half of the power, the total the code
    adds up is [+inf], and the pick probability stored in both is 0.
    (Two lights of half that power, whose sum is [FLT_MAX], get 0.5
    each.) *)
Lemma pick_probability_finite_total_counterexample :
  (powers [light FLT_MAX; light FLT_MAX] = [FLT_MAX; FLT_MAX] /\
   fsum (powers [light FLT_MAX; light FLT_MAX]) = finf /\
   map pickPDF (m_lights (Scene_._genLightDistribution
                            (scene_of [] [light FLT_MAX; light FLT_MAX])))
   = [fzero; fzero]) /\
  (fsum (powers [light (fdiv FLT_MAX f2); light (fdiv FLT_MAX f2)]) = FLT_MAX /\
   map pickPDF (m_lights (Scene_._genLightDistribution
                            (scene_of [] [light (fdiv FLT_MAX f2); light (fdiv FLT_MAX f2)])))
   = [half; half]).
Proof. vm_compute. auto. Qed.

End PickProbability.

(** ** Distribution1D::SampleDiscrete *)

Module Distribution.

Import Sample Float32Arith.

#[local] Arguments fadd : simpl never.
#[local] Arguments fdiv : simpl never.
#[local] Arguments fle : simpl never.








End Distribution.

(** ** Scene::GetBBox *)

Module BoundingBox.

Import Sample.

(** Uniting a box twice with the same box changes nothing more, and a
    box already absorbed stays absorbed when the box grows. *)
Lemma fmin_idem (a b : float) : BBox_.fmin (BBox_.fmin a b) b = BBox_.fmin a b.
Proof.
  unfold BBox_.fmin. destruct (flt b a) eqn:E; [|rewrite E; reflexivity].
  rewrite flt_irrefl. reflexivity.
Qed.

Lemma fmax_idem (a b : float) : BBox_.fmax (BBox_.fmax a b) b = BBox_.fmax a b.
Proof.
  unfold BBox_.fmax. destruct (flt a b) eqn:E; [|rewrite E; reflexivity].
  rewrite flt_irrefl. reflexivity.
Qed.

Lemma fmin_absorb (a b c : float) :
  BBox_.fmin a b = a -> BBox_.fmin (BBox_.fmin a c) b = BBox_.fmin a c.
Proof.
  unfold BBox_.fmin. intros H.
  destruct (flt c a) eqn:Eca; [|exact H].
  destruct (flt b c) eqn:Ebc; [|reflexivity].
  pose proof (flt_trans _ _ _ Ebc Eca) as Eba. rewrite Eba in H. subst b.
  rewrite flt_irrefl in Eba. discriminate.
Qed.

Lemma fmax_absorb (a b c : float) :
  BBox_.fmax a b = a -> BBox_.fmax (BBox_.fmax a c) b = BBox_.fmax a c.
Proof.
  unfold BBox_.fmax. intros H.
  destruct (flt a c) eqn:Eac; [|exact H].
  destruct (flt c b) eqn:Ecb; [|reflexivity].
  pose proof (flt_trans _ _ _ Eac Ecb) as Eab. rewrite Eab in H. subst b.
  rewrite flt_irrefl in Eab. discriminate.
Qed.

Lemma Union_idem (B b : BBox) : BBox_.Union (BBox_.Union B b) b = BBox_.Union B b.
Proof.
  unfold BBox_.Union, BBox_.pmin, BBox_.pmax. simpl.
  rewrite !fmin_idem, !fmax_idem. reflexivity.
Qed.

Lemma Union_absorb (B b c : BBox) :
  BBox_.Union B b = B -> BBox_.Union (BBox_.Union B c) b = BBox_.Union B c.
Proof.
  destruct B as [[x y z] [x' y' z']].
  unfold BBox_.Union, BBox_.pmin, BBox_.pmax. simpl. intros H.
  inversion H as [[Hx Hy Hz Hx' Hy' Hz']].
  rewrite !Hx, !Hy, !Hz, !Hx', !Hy', !Hz'.
  rewrite (fmin_absorb x _ _ Hx), (fmin_absorb y _ _ Hy), (fmin_absorb z _ _ Hz).
  rewrite (fmax_absorb x' _ _ Hx'), (fmax_absorb y' _ _ Hy'), (fmax_absorb z' _ _ Hz').
  reflexivity.
Qed.

(** The loop returns the union of the boxes and calls [Union] once per
    primitive. *)
Lemma union_loop_eq (it : list Primitive) (box : BBox) (calls : nat) :
  Scene_.union_loop it box calls = (fold_left unite it box, (calls + length it)%nat).
Proof.
  revert box calls. induction it as [|p it IH]; intros box calls; simpl.
  - rewrite Nat.add_0_r. reflexivity.
  - rewrite IH. f_equal. lia.
Qed.

Lemma fold_unite_absorbs (it : list Primitive) (box : BBox) (p : Primitive) :
  unite box p = box -> unite (fold_left unite it box) p = fold_left unite it box.
Proof.
  revert box. induction it as [|q it IH]; intros box H; simpl; [exact H|].
  apply IH. apply Union_absorb, H.
Qed.

Lemma fold_unite_absorbs_all (it : list Primitive) (box : BBox) (p : Primitive) :
  In p it -> unite (fold_left unite it box) p = fold_left unite it box.
Proof.
  revert box. induction it as [|q it IH]; intros box Hin; [destruct Hin|].
  simpl. destruct Hin as [->|Hin].
  - apply fold_unite_absorbs, Union_idem.
  - apply IH, Hin.
Qed.

(** Uniting the boxes of the primitives into their union changes nothing. *)
Lemma fold_unite_again (it rest : list Primitive) (box : BBox) :
  (forall p, In p rest -> In p it) ->
  fold_left unite rest (fold_left unite it box) = fold_left unite it box.
Proof.
  induction rest as [|p rest IH]; intros Hsub; simpl; [reflexivity|].
  rewrite fold_unite_absorbs_all by (apply Hsub; left; reflexivity).
  apply IH. intros q Hq. apply Hsub. right. exact Hq.
Qed.

(** C9, the code on any scene without accelerator. The first call of
    [GetBBox] returns the union of the boxes of all primitives with the
    box the field held, and leaves it in the field [m_BBox]; a second call
    on the scene as the first call left it returns the same box. But the
    box is not computed once and reused: the second call runs [Union]
    again for every primitive of the buffer. *)
Theorem GetBBox_recomputes (s : Scene) :
  let first := Scene_.GetBBox None s in
  let second := Scene_.GetBBox None (Scene_.scene_after first) in
  Scene_.box_returned first = fold_left unite (m_primitiveBuf s) (m_BBox s) /\
  m_BBox (Scene_.scene_after first) = Scene_.box_returned first /\
  Scene_.box_returned second = Scene_.box_returned first /\
  Scene_.union_calls first = length (m_primitiveBuf s) /\
  Scene_.union_calls second = length (m_primitiveBuf s).
Proof.
  unfold Scene_.GetBBox. rewrite union_loop_eq. simpl. rewrite union_loop_eq. simpl.
  repeat split.
  apply fold_unite_again. auto.
Qed.

(** C9, at a scene of one primitive: the second call of [GetBBox] unites
    the primitive's box into the cached box once more. *)
Example GetBBox_twice :
  Scene_.union_calls
    (Scene_.GetBBox None
       (Scene_.scene_after (Scene_.GetBBox None (scene_of [tri f2 0] [])))) = 1%nat /\
  Scene_.box_returned (Scene_.GetBBox None (scene_of [tri f2 0] [])) = unit_box.
Proof. split; reflexivity. Qed.

End BoundingBox.

(* ===================================================================== *)
(** * Part III: further properties of the scene *)
(* ===================================================================== *)

(** ** The light distribution and its users *)

Module LightExtras.

Import Sample LightSampling Float32Arith.

Lemma SetPickPDF_twice (a b : float) (l : Light) :
  SetPickPDF b (SetPickPDF a l) = SetPickPDF b l.
Proof. reflexivity. Qed.

Lemma powers_SetPickPDF (f : Light -> float) (lights : list Light) :
  powers (map (fun l => SetPickPDF (f l) l) lights) = powers lights.
Proof.
  unfold powers. rewrite map_map. apply map_ext. reflexivity.
Qed.

(** [_genLightDistribution] field by field. *)
Lemma genLightDistribution_nil (s : Scene) :
  m_lights s = [] -> Scene_._genLightDistribution s = s.
Proof. intros E. unfold Scene_._genLightDistribution. rewrite E. reflexivity. Qed.

Lemma genLightDistribution_primitiveBuf (s : Scene) :
  m_primitiveBuf (Scene_._genLightDistribution s) = m_primitiveBuf s.
Proof.
  destruct (m_lights s) as [|l ls] eqn:E.
  - rewrite (genLightDistribution_nil s E). reflexivity.
  - rewrite genLightDistribution_eq by (rewrite E; discriminate). reflexivity.
Qed.

Lemma genLightDistribution_BBox (s : Scene) :
  m_BBox (Scene_._genLightDistribution s) = m_BBox s.
Proof.
  destruct (m_lights s) as [|l ls] eqn:E.
  - rewrite (genLightDistribution_nil s E). reflexivity.
  - rewrite genLightDistribution_eq by (rewrite E; discriminate). reflexivity.
Qed.

Lemma genLightDistribution_powers (s : Scene) :
  powers (m_lights (Scene_._genLightDistribution s)) = powers (m_lights s).
Proof.
  destruct (m_lights s) as [|l ls] eqn:E.
  - rewrite (genLightDistribution_nil s E), E. reflexivity.
  - rewrite genLightDistribution_eq by (rewrite E; discriminate).
    cbn [m_lights]. rewrite E.
    apply (powers_SetPickPDF
             (fun l0 => fdiv (power_intensity l0) (fsum (powers (l :: ls))))).
Qed.

Lemma genLightDistribution_length (s : Scene) :
  length (m_lights (Scene_._genLightDistribution s)) = length (m_lights s).
Proof.
  pose proof (genLightDistribution_powers s) as H.
  apply (f_equal (@length float)) in H. unfold powers in H.
  rewrite !length_map in H. exact H.
Qed.

Lemma genLightDistribution_lightsDis (s : Scene) :
  m_lights s <> [] ->
  m_lightsDis (Scene_._genLightDistribution s)
  = Some (Distribution1D_.build (powers (m_lights s)) (length (m_lights s))).
Proof. intros Hne. rewrite (genLightDistribution_eq s Hne). reflexivity. Qed.

(** X1. [_genLightDistribution] changes nothing but the pick
    probabilities and the distribution: the primitives, the cached box,
    the number of lights and the power of every light stay as they were;
    the distribution is replaced exactly when there is a light. *)
Theorem genLightDistribution_frame (s : Scene) :
  m_primitiveBuf (Scene_._genLightDistribution s) = m_primitiveBuf s /\
  m_BBox (Scene_._genLightDistribution s) = m_BBox s /\
  length (m_lights (Scene_._genLightDistribution s)) = length (m_lights s) /\
  powers (m_lights (Scene_._genLightDistribution s)) = powers (m_lights s) /\
  m_lightsDis (Scene_._genLightDistribution s)
  = match m_lights s with
    | [] => m_lightsDis s
    | _ :: _ => Some (Distribution1D_.build (powers (m_lights s)) (length (m_lights s)))
    end.
Proof.
  split; [apply genLightDistribution_primitiveBuf|].
  split; [apply genLightDistribution_BBox|].
  split; [apply genLightDistribution_length|].
  split; [apply genLightDistribution_powers|].
  destruct (m_lights s) as [|l ls] eqn:E.
  - rewrite (genLightDistribution_nil s E). reflexivity.
  - rewrite genLightDistribution_lightsDis by (rewrite E; discriminate).
    rewrite E. reflexivity.
Qed.

(** X2. Building the light distribution a second time changes nothing:
    the pick probabilities depend on the powers only, which the first
    run left alone. *)
Theorem genLightDistribution_idempotent (s : Scene) :
  Scene_._genLightDistribution (Scene_._genLightDistribution s)
  = Scene_._genLightDistribution s.
Proof.
  destruct (m_lights s) as [|l ls] eqn:E.
  - rewrite !(genLightDistribution_nil s E). reflexivity.
  - assert (Hne : m_lights s <> []) by (rewrite E; discriminate).
    assert (Hne' : m_lights (Scene_._genLightDistribution s) <> []).
    { intros E0. apply (f_equal (@length Light)) in E0.
      rewrite genLightDistribution_length, E in E0. discriminate. }
    rewrite (genLightDistribution_eq _ Hne').
    rewrite genLightDistribution_primitiveBuf, genLightDistribution_BBox,
      genLightDistribution_length, genLightDistribution_powers.
    rewrite (genLightDistribution_eq s Hne) at 1.
    cbn [m_lights]. rewrite map_map.
    rewrite (genLightDistribution_eq s Hne). reflexivity.
Qed.

(** X3. A scene with a single light whose power is a finite number other
    than zero picks that light with probability exactly 1. *)
Theorem single_light_pick_is_one (s : Scene) (l : Light) (sg : bool) (m : positive) (e : Z) :
  m_lights s = [l] -> power_intensity l = S754_finite sg m e ->
  m_lights (Scene_._genLightDistribution s) = [SetPickPDF fone l].
Proof.
  intros El Ep.
  assert (Hne : m_lights s <> []) by (rewrite El; discriminate).
  rewrite (genLightDistribution_eq s Hne). cbn [m_lights]. rewrite El.
  cbn [map powers]. unfold fsum. cbn [fold_left]. rewrite Ep.
  change (fadd fzero (S754_finite sg m e)) with (S754_finite sg m e).
  rewrite fdiv_self. reflexivity.
Qed.

Lemma single_light_pick_is_one_witness :
  (m_lights (scene_of [] [light f3]) = [light f3] /\
   power_intensity (light f3) = S754_finite false 12582912 (-22)) /\
  m_lights (Scene_._genLightDistribution (scene_of [] [light f3]))
  = [SetPickPDF fone (light f3)].
Proof.
  split; [split; reflexivity|].
  exact (single_light_pick_is_one (scene_of [] [light f3]) (light f3)
           false 12582912 (-22) eq_refl eq_refl).
Defined.

Lemma finite_nonneg_cases (x : float) :
  finite_nonneg x ->
  (exists s, x = S754_zero s) \/ (exists m e, x = S754_finite false m e).
Proof.
  intros [H0 Hf]. destruct x as [s|[]| |[] m e]; try discriminate; eauto.
Qed.

(** X4. When the power of a light is a number that is neither negative
    nor infinite and the total power is positive and finite, the pick
    probability stored in the light is a number that is not negative;
    it is zero for a light of power zero. *)
Theorem pick_probability_nonneg (s : Scene) (i : nat) (l l' : Light) :
  flt fzero (fsum (powers (m_lights s))) = true ->
  flt (fsum (powers (m_lights s))) finf = true ->
  m_lights s !! i = Some l -> finite_nonneg (power_intensity l) ->
  m_lights (Scene_._genLightDistribution s) !! i = Some l' ->
  fle fzero (pickPDF l') = true /\
  (feq (power_intensity l) fzero = true -> feq (pickPDF l') fzero = true).
Proof.
  intros Hpos Hfin Hl Hp Hl'.
  destruct (pick_probability s i l Hl) as [l2 [Hl2 [_ Hpick]]].
  rewrite Hl' in Hl2. inversion Hl2. subst l2. rewrite Hpick.
  destruct (positive_finite _ Hpos Hfin) as [m [e ->]].
  split.
  - apply fdiv_nonneg, finite_nonneg_cases, Hp.
  - destruct (power_intensity l) as [sz|[]| |[] mp ep]; try discriminate.
    intros _. destruct sz; reflexivity.
Qed.

Lemma pick_probability_nonneg_witness :
  (flt fzero (fsum (powers (m_lights (scene_of [] [light fzero; light f3])))) = true /\
   flt (fsum (powers (m_lights (scene_of [] [light fzero; light f3])))) finf = true /\
   finite_nonneg (power_intensity (light fzero))) /\
  fle fzero (pickPDF (SetPickPDF fzero (light fzero))) = true.
Proof.
  split; [repeat split|].
  exact (proj1 (pick_probability_nonneg (scene_of [] [light fzero; light f3]) 0
                  (light fzero) (SetPickPDF fzero (light fzero))
                  eq_refl eq_refl eq_refl (conj eq_refl eq_refl) eq_refl)).
Defined.

(** [SampleLight] once its two assertions and the dereference are past. *)
Lemma SampleLight_body (debug : bool) (s : Scene) (d : Distribution1D) (u : float)
    (pdf : option float) :
  m_lightsDis s = Some d -> (debug = true -> fle fzero u && fle u fone = true) ->
  Scene_.SampleLight debug s u pdf =
  (if (0 <=? fst (Distribution1D_.SampleDiscrete d u))
      && (fst (Distribution1D_.SampleDiscrete d u) <? Z.of_nat (length (m_lights s)))
      && fne (snd (Distribution1D_.SampleDiscrete d u)) fzero
   then Returned (m_lights s !! Z.to_nat (fst (Distribution1D_.SampleDiscrete d u)),
                  match pdf with
                  | Some _ => Some (snd (Distribution1D_.SampleDiscrete d u))
                  | None => None
                  end)
   else Returned (None, pdf)).
Proof.
  intros Hd Hu. unfold Scene_.SampleLight, sAssert, sAssertMsg. rewrite Hd.
  destruct debug; simpl; [rewrite (Hu eq_refl); simpl|];
    destruct (Distribution1D_.SampleDiscrete d u) as [id _pdf]; reflexivity.
Qed.

(** When [SampleLight] returns: in a debug build exactly when [u] lies in
    [[0, 1]] and a light distribution exists, with assertions compiled
    out exactly when a distribution exists. *)
Lemma SampleLight_returns_iff (s : Scene) (u : float) (pdf : option float) :
  ((exists res, Scene_.SampleLight true s u pdf = Returned res) <->
   fle fzero u && fle u fone = true /\ is_null (m_lightsDis s) = false) /\
  ((exists res, Scene_.SampleLight false s u pdf = Returned res) <->
   is_null (m_lightsDis s) = false).
Proof.
  assert (Hret : forall debug d,
             m_lightsDis s = Some d -> (debug = true -> fle fzero u && fle u fone = true) ->
             exists res, Scene_.SampleLight debug s u pdf = Returned res).
  { intros debug d Hd Hu. rewrite (SampleLight_body debug s d u pdf Hd Hu).
    destruct (_ && _ && _); eauto. }
  split; split.
  - intros [res H]. split.
    + destruct (fle fzero u && fle u fone) eqn:Hu; [reflexivity|].
      unfold Scene_.SampleLight, sAssert, sAssertMsg in H.
      rewrite Hu in H. discriminate.
    + destruct (m_lightsDis s) as [d|] eqn:Hd; [reflexivity|].
      unfold Scene_.SampleLight, sAssert, sAssertMsg in H. rewrite Hd in H.
      destruct (fle fzero u && fle u fone); discriminate.
  - intros [Hu Hd]. destruct (m_lightsDis s) as [d|] eqn:Ed; [|discriminate].
    apply (Hret true d); auto.
  - intros [res H]. destruct (m_lightsDis s) as [d|] eqn:Hd; [reflexivity|].
    unfold Scene_.SampleLight, sAssert, sAssertMsg in H. rewrite Hd in H. discriminate.
  - intros Hd. destruct (m_lightsDis s) as [d|] eqn:Ed; [|discriminate].
    apply (Hret false d); auto. discriminate.
Qed.

(** X6. What [SampleLight] hands back. A light it returns is one of the
    lights of the scene, and the pdf it then stores through a non-null
    [pdf] pointer is different from zero; when it returns a null light,
    what [pdf] points to is left as it was. A null [pdf] pointer is never
    written through. *)
Theorem SampleLight_result (debug : bool) (s : Scene) (u : float) (pdf : option float)
    (res : option Light * option float) :
  Scene_.SampleLight debug s u pdf = Returned res ->
  match fst res with
  | Some l =>
      In l (m_lights s) /\
      match pdf, snd res with
      | Some _, Some v => fne v fzero = true
      | None, None => True
      | _, _ => False
      end
  | None => snd res = pdf
  end.
Proof.
  intros H.
  destruct (m_lightsDis s) as [d|] eqn:Hd.
  2:{ unfold Scene_.SampleLight, sAssert, sAssertMsg in H. rewrite Hd in H.
      destruct debug, (fle fzero u && fle u fone); discriminate. }
  assert (Hu : debug = true -> fle fzero u && fle u fone = true).
  { intros ->. destruct (fle fzero u && fle u fone) eqn:E; [reflexivity|].
    unfold Scene_.SampleLight, sAssert, sAssertMsg in H. rewrite E in H. discriminate. }
  rewrite (SampleLight_body debug s d u pdf Hd Hu) in H.
  destruct (Distribution1D_.SampleDiscrete d u) as [id _pdf]. simpl in H.
  destruct ((0 <=? id) && (id <? Z.of_nat (length (m_lights s))) && fne _pdf fzero) eqn:G.
  - apply andb_true_iff in G as [G Hne]. apply andb_true_iff in G as [G0 G1].
    apply Z.leb_le in G0. apply Z.ltb_lt in G1.
    inversion H. subst res. simpl.
    destruct (lookup_lt_is_Some_2 (m_lights s) (Z.to_nat id)) as [l Hl]; [lia|].
    rewrite Hl. split.
    + apply list_elem_of_In. eapply list_elem_of_lookup_2. exact Hl.
    + destruct pdf; [exact Hne|exact I].
  - inversion H. reflexivity.
Qed.

Lemma SampleLight_result_witness :
  Scene_.SampleLight true (Scene_._genLightDistribution (scene_of [] [light fone; light f3]))
    half (Some fzero)
  = Returned (Some (SetPickPDF (S754_finite false 12582912 (-24)) (light f3)),
              Some (S754_finite false 12582912 (-24))) /\
  In (SetPickPDF (S754_finite false 12582912 (-24)) (light f3))
     (m_lights (Scene_._genLightDistribution (scene_of [] [light fone; light f3]))).
Proof.
  assert (H : Scene_.SampleLight true
                (Scene_._genLightDistribution (scene_of [] [light fone; light f3]))
                half (Some fzero)
              = Returned (Some (SetPickPDF (S754_finite false 12582912 (-24)) (light f3)),
                          Some (S754_finite false 12582912 (-24))))
    by reflexivity.
  split; [exact H|].
  exact (proj1 (SampleLight_result true _ half (Some fzero) _ H)).
Defined.

(** X7. Once [_genLightDistribution] has run on a scene with at least
    one light, [SampleLight] returns for every [u] in [[0, 1]]: neither of
    its assertions fails and the distribution it dereferences exists. *)
Theorem SampleLight_after_genLightDistribution (debug : bool) (s : Scene) (u : float)
    (pdf : option float) :
  m_lights s <> [] -> fle fzero u && fle u fone = true ->
  exists res,
    Scene_.SampleLight debug (Scene_._genLightDistribution s) u pdf = Returned res.
Proof.
  intros Hne Hu.
  assert (Hd : is_null (m_lightsDis (Scene_._genLightDistribution s)) = false).
  { rewrite (genLightDistribution_lightsDis s Hne). reflexivity. }
  destruct (SampleLight_returns_iff (Scene_._genLightDistribution s) u pdf)
    as [Hdebug Hrelease].
  destruct debug; [apply Hdebug|apply Hrelease]; auto.
Qed.

Lemma SampleLight_after_genLightDistribution_witness :
  (m_lights (scene_of [] [light fone; light f3]) = [light fone; light f3] /\
   fle fzero half && fle half fone = true) /\
  exists res,
    Scene_.SampleLight true (Scene_._genLightDistribution (scene_of [] [light fone; light f3]))
      half None = Returned res.
Proof.
  split; [split; reflexivity|].
  apply (SampleLight_after_genLightDistribution true (scene_of [] [light fone; light f3])
           half None); [discriminate|reflexivity].
Defined.

End LightExtras.

(** ** More on Scene::GetIntersect *)

Module IntersectExtras.

Import Sample Intersect.

(** X9. The two modes of the brute force path are consistent one way:
    when a query with a hit record (whose primitive pointer is null on
    entry) reports a hit, the same query without hit record reports one
    too. (The converse fails for a hit at exactly [tMax].) *)
Theorem record_hit_implies_shadow_hit (s : Scene) (r : Ray) (rec : Intersection) :
  primitive rec = None ->
  fst (Scene_.GetIntersect None s r (Some rec)) = true ->
  fst (Scene_.GetIntersect None s r None) = true.
Proof.
  intros Hnull H. apply (bf_hit_iff s r rec Hnull) in H.
  destruct H as [p [d [Hin [Hh _]]]].
  rewrite bf_null. simpl. apply existsb_reports_hits. eauto.
Qed.

Lemma record_hit_implies_shadow_hit_witness :
  (primitive fresh = None /\
   fst (Scene_.GetIntersect None (scene_of [tri f3 0; tri f2 1] []) (ray_to f5)
          (Some fresh)) = true) /\
  fst (Scene_.GetIntersect None (scene_of [tri f3 0; tri f2 1] []) (ray_to f5) None) = true.
Proof.
  split; [split; reflexivity|].
  exact (record_hit_implies_shadow_hit (scene_of [tri f3 0; tri f2 1] []) (ray_to f5)
           fresh eq_refl eq_refl).
Defined.

Lemma closest_again (r : Ray) (buf : list Primitive) (rec : Intersection) :
  closest r buf (entry (closest r buf (entry rec))) = closest r buf (entry rec).
Proof.
  destruct (closest_prior r buf (entry rec) (entry (closest r buf (entry rec))) eq_refl)
    as [[E1 E2]|E].
  - rewrite E2, E1. reflexivity.
  - symmetry. exact E.
Qed.

(** X10. A hit record can be used again: running [GetIntersect] for the
    same ray with the record a first run produced gives the same return
    value and the same record, with or without accelerator. *)
Theorem GetIntersect_record_reuse (accel : option Accelerator) (s : Scene) (r : Ray)
    (rec : Intersection) :
  exists rec',
    snd (Scene_.GetIntersect accel s r (Some rec)) = Some rec' /\
    Scene_.GetIntersect accel s r (Some rec') = Scene_.GetIntersect accel s r (Some rec).
Proof.
  destruct accel as [a|].
  - exists (closest r (acc_index a) (entry rec)).
    rewrite !accel_record, closest_again. auto.
  - exists (closest r (m_primitiveBuf s) (entry rec)).
    rewrite !bf_record, closest_again. auto.
Qed.

(** X11. Whatever the caller left in the hit record, also a NaN distance
    or a stale pointer, the record the brute force path leaves holds a
    distance that is a number between 0 and [FLT_MAX], and it is either
    the entry record untouched (distance [FLT_MAX], the caller's pointer)
    or a primitive of the buffer together with the distance at which the
    ray meets it. *)
Theorem bf_record_invariant (s : Scene) (r : Ray) (rec : Intersection) :
  exists rec',
    snd (Scene_.GetIntersect None s r (Some rec)) = Some rec' /\
    is_nan (t rec') = false /\
    fle fzero (t rec') = true /\ fle (t rec') FLT_MAX = true /\
    (rec' = {| t := FLT_MAX; primitive := primitive rec |} \/
     exists p, In p (m_primitiveBuf s) /\ hits r p (t rec') /\
               flt (t rec') FLT_MAX = true /\ primitive rec' = Some p).
Proof.
  exists (closest r (m_primitiveBuf s) (entry rec)).
  rewrite bf_record. split; [reflexivity|].
  pose proof (closest_le r (m_primitiveBuf s) (entry rec) eq_refl) as Hle.
  pose proof (closest_not_nan r (m_primitiveBuf s) (entry rec) eq_refl) as Hn.
  destruct (closest_cases r (m_primitiveBuf s) (entry rec))
    as [E|[p [d [Hin [Hh [Hlt E]]]]]].
  - rewrite E in *. repeat split; auto.
  - rewrite E in *. simpl in *. repeat split; auto.
    + apply (hits_range r p d Hh).
    + right. exists p. auto.
Qed.

(** X12. Primitives appended to the buffer can only bring the hit
    closer: on the brute force path a query without hit record that
    reported a hit still reports one, and with a hit record the distance
    left in the record does not grow. *)
Theorem bf_more_primitives (s s' : Scene) (more : list Primitive) (r : Ray) :
  m_primitiveBuf s' = m_primitiveBuf s ++ more ->
  (fst (Scene_.GetIntersect None s r None) = true ->
   fst (Scene_.GetIntersect None s' r None) = true) /\
  (forall rec rec1 rec2,
     snd (Scene_.GetIntersect None s r (Some rec)) = Some rec1 ->
     snd (Scene_.GetIntersect None s' r (Some rec)) = Some rec2 ->
     fle (t rec2) (t rec1) = true).
Proof.
  intros E. split.
  - rewrite !bf_null, E, existsb_app. simpl. intros ->. reflexivity.
  - intros rec rec1 rec2. rewrite !bf_record, E. simpl.
    intros H1 H2. inversion H1. inversion H2. subst rec1 rec2.
    unfold closest. rewrite fold_left_app.
    apply (closest_le r more (closest r (m_primitiveBuf s) (entry rec))).
    apply closest_not_nan. reflexivity.
Qed.

Lemma bf_more_primitives_witness :
  m_primitiveBuf (scene_of [tri f3 0; tri f2 1] []) = m_primitiveBuf (scene_of [tri f3 0] [])
                                                      ++ [tri f2 1] /\
  fst (Scene_.GetIntersect None (scene_of [tri f3 0; tri f2 1] []) (ray_to f5) None) = true /\
  fle f2 f3 = true.
Proof.
  split; [reflexivity|]. split.
  - exact (proj1 (bf_more_primitives (scene_of [tri f3 0] [])
                    (scene_of [tri f3 0; tri f2 1] []) [tri f2 1] (ray_to f5) eq_refl)
             eq_refl).
  - exact (proj2 (bf_more_primitives (scene_of [tri f3 0] [])
                    (scene_of [tri f3 0; tri f2 1] []) [tri f2 1] (ray_to f5) eq_refl)
             fresh {| t := f3; primitive := Some (tri f3 0) |}
             {| t := f2; primitive := Some (tri f2 1) |} eq_refl eq_refl).
Defined.

End IntersectExtras.

(** ** More on Scene::GetBBox *)

Module BBoxExtras.

Import Sample BoundingBox.

Lemma fmin_self (a : float) : BBox_.fmin a a = a.
Proof. unfold BBox_.fmin. rewrite flt_irrefl. reflexivity. Qed.

Lemma fmax_self (a : float) : BBox_.fmax a a = a.
Proof. unfold BBox_.fmax. rewrite flt_irrefl. reflexivity. Qed.

Lemma Union_self (B : BBox) : BBox_.Union B B = B.
Proof.
  destruct B as [[x y z] [x' y' z']].
  unfold BBox_.Union, BBox_.pmin, BBox_.pmax. simpl.
  rewrite !fmin_self, !fmax_self. reflexivity.
Qed.

(** A box absorbed by the running union stays absorbed to the end. *)
Lemma fold_unite_keeps (it : list Primitive) (box b : BBox) :
  BBox_.Union box b = box ->
  BBox_.Union (fold_left unite it box) b = fold_left unite it box.
Proof.
  revert box. induction it as [|q it IH]; intros box H; simpl; [exact H|].
  apply IH. apply Union_absorb, H.
Qed.

(** X14. The box [GetBBox] returns without accelerator contains the box
    of every primitive of the buffer and the box the cache field held
    before the call: uniting any of them into it again changes nothing.
    So the cached box never shrinks. *)
Theorem GetBBox_contains (s : Scene) :
  (forall p, In p (m_primitiveBuf s) ->
     BBox_.Union (Scene_.box_returned (Scene_.GetBBox None s)) (Triangle_.GetBBox p)
     = Scene_.box_returned (Scene_.GetBBox None s)) /\
  BBox_.Union (Scene_.box_returned (Scene_.GetBBox None s)) (m_BBox s)
  = Scene_.box_returned (Scene_.GetBBox None s).
Proof.
  unfold Scene_.GetBBox. rewrite union_loop_eq. simpl. split.
  - intros p Hin. apply (fold_unite_absorbs_all _ _ _ Hin).
  - apply fold_unite_keeps, Union_self.
Qed.

(** *** Folding a minimum or a maximum over a permuted list

    [better x y] says that [x] replaces [y] as the running extreme:
    [x < y] for a minimum, [y < x] for a maximum. *)
Section Extreme.

Variable better : float -> float -> bool.

Hypothesis better_numbers :
  forall x y, better x y = true -> is_nan x = false /\ is_nan y = false.
Hypothesis better_trans :
  forall x y z, better x y = true -> better y z = true -> better x z = true.
Hypothesis better_irrefl : forall x, better x x = false.
Hypothesis better_total :
  forall x y, is_nan x = false -> is_nan y = false ->
              better x y = false -> better y x = false -> feq x y = true.

Local Abbreviation pick := (pick better).

Lemma pick_not_nan (a b : float) : is_nan a = false -> is_nan (pick a b) = false.
Proof.
  intros H. unfold pick. destruct (better b a) eqn:E; [|exact H].
  apply (better_numbers _ _ E).
Qed.

(** Nothing is better than the extreme a step has passed. *)
Lemma pick_step (a b x : float) : better x (pick a b) = true -> better x a = true.
Proof.
  unfold pick. destruct (better b a) eqn:E; [|auto].
  intros H. eapply better_trans; eauto.
Qed.

Lemma fold_pick_not_nan (vs : list float) (a : float) :
  is_nan a = false -> is_nan (fold_left pick vs a) = false.
Proof.
  revert a. induction vs as [|v vs IH]; intros a H; simpl; [exact H|].
  apply IH, pick_not_nan, H.
Qed.

Lemma fold_pick_step (vs : list float) (a x : float) :
  better x (fold_left pick vs a) = true -> better x a = true.
Proof.
  revert a. induction vs as [|v vs IH]; intros a H; simpl in H; [exact H|].
  apply (pick_step a v), IH, H.
Qed.

Lemma fold_pick_best (vs : list float) (a v : float) :
  In v vs -> better v (fold_left pick vs a) = false.
Proof.
  revert a. induction vs as [|w vs IH]; intros a Hin; [destruct Hin|].
  simpl. destruct Hin as [->|Hin]; [|apply IH, Hin].
  destruct (better v (fold_left pick vs (pick a v))) eqn:E; [|reflexivity].
  apply fold_pick_step in E. unfold pick in E.
  destruct (better v a) eqn:Eva; [|congruence].
  rewrite better_irrefl in E. discriminate.
Qed.

Lemma fold_pick_cases (vs : list float) (a : float) :
  fold_left pick vs a = a \/ In (fold_left pick vs a) vs.
Proof.
  revert a. induction vs as [|v vs IH]; intros a; simpl; [left; reflexivity|].
  destruct (IH (pick a v)) as [E|Hin]; [|right; right; exact Hin].
  rewrite E. unfold pick. destruct (better v a); [right; left|left]; reflexivity.
Qed.

Lemma fold_pick_not_worse (vs vs' : list float) (a : float) :
  (forall v, In v vs' -> In v vs) ->
  better (fold_left pick vs' a) (fold_left pick vs a) = false.
Proof.
  intros Hsub. destruct (fold_pick_cases vs' a) as [E|Hin].
  - rewrite E. destruct (better a (fold_left pick vs a)) eqn:Eb; [|reflexivity].
    apply fold_pick_step in Eb. rewrite better_irrefl in Eb. discriminate.
  - apply fold_pick_best, Hsub, Hin.
Qed.

Lemma fold_pick_permutation (vs vs' : list float) (a : float) :
  Permutation vs vs' -> is_nan a = false ->
  feq (fold_left pick vs a) (fold_left pick vs' a) = true.
Proof.
  intros HP Ha. apply better_total.
  - apply fold_pick_not_nan, Ha.
  - apply fold_pick_not_nan, Ha.
  - apply fold_pick_not_worse. intros v Hv. eapply Permutation_in; eauto.
  - apply fold_pick_not_worse. intros v Hv.
    eapply Permutation_in; [apply Permutation_sym|]; eauto.
Qed.

End Extreme.

Lemma fold_fmin_permutation (vs vs' : list float) (a : float) :
  Permutation vs vs' -> is_nan a = false ->
  feq (fold_left BBox_.fmin vs a) (fold_left BBox_.fmin vs' a) = true.
Proof.
  apply (fold_pick_permutation flt).
  - intros x y H. split; float_order.
  - apply flt_trans.
  - apply flt_irrefl.
  - intros x y Hx Hy H1 H2. float_order.
Qed.

Lemma fold_fmax_permutation (vs vs' : list float) (a : float) :
  Permutation vs vs' -> is_nan a = false ->
  feq (fold_left BBox_.fmax vs a) (fold_left BBox_.fmax vs' a) = true.
Proof.
  apply (fold_pick_permutation (fun x y => flt y x)).
  - intros x y H. split; float_order.
  - intros x y z H1 H2. eapply flt_trans; eauto.
  - apply flt_irrefl.
  - intros x y Hx Hy H1 H2. float_order.
Qed.

(** Each coordinate of the united box is a fold over that coordinate. *)
Lemma fold_unite_Min (it : list Primitive) (box : BBox) (c : Point -> float)
    (Hc : forall p q, c (BBox_.pmin p q) = BBox_.fmin (c p) (c q)) :
  c (m_Min (fold_left unite it box))
  = fold_left BBox_.fmin (map (fun p => c (m_Min (Triangle_.GetBBox p))) it) (c (m_Min box)).
Proof.
  revert box. induction it as [|p it IH]; intros box; simpl; [reflexivity|].
  rewrite IH. unfold unite. simpl. rewrite Hc. reflexivity.
Qed.

Lemma fold_unite_Max (it : list Primitive) (box : BBox) (c : Point -> float)
    (Hc : forall p q, c (BBox_.pmax p q) = BBox_.fmax (c p) (c q)) :
  c (m_Max (fold_left unite it box))
  = fold_left BBox_.fmax (map (fun p => c (m_Max (Triangle_.GetBBox p))) it) (c (m_Max box)).
Proof.
  revert box. induction it as [|p it IH]; intros box; simpl; [reflexivity|].
  rewrite IH. unfold unite. simpl. rewrite Hc. reflexivity.
Qed.

(** X15. The order of the primitives in the buffer does not matter to the
    box: when the cache field holds numbers (as the empty box does),
    [GetBBox] without accelerator returns boxes with equal coordinates
    for two scenes whose buffers are permutations of each other. *)
Theorem GetBBox_order_irrelevant (s s' : Scene) :
  Permutation (m_primitiveBuf s) (m_primitiveBuf s') ->
  m_BBox s' = m_BBox s -> box_numbers (m_BBox s) ->
  same_box (Scene_.box_returned (Scene_.GetBBox None s))
           (Scene_.box_returned (Scene_.GetBBox None s')).
Proof.
  intros HP Ebox [[Hx [Hy Hz]] [Hx' [Hy' Hz']]].
  unfold Scene_.GetBBox. rewrite !union_loop_eq, Ebox. simpl.
  unfold same_box, same_point.
  rewrite !(fold_unite_Min _ _ px), !(fold_unite_Min _ _ py), !(fold_unite_Min _ _ pz),
    !(fold_unite_Max _ _ px), !(fold_unite_Max _ _ py), !(fold_unite_Max _ _ pz)
    by reflexivity.
  repeat split;
    first [apply fold_fmin_permutation | apply fold_fmax_permutation];
    auto using Permutation_map.
Qed.

Lemma GetBBox_order_irrelevant_witness :
  (Permutation [tri f3 0; tri f2 1] [tri f2 1; tri f3 0] /\ box_numbers BBox_.empty) /\
  same_box
    (Scene_.box_returned (Scene_.GetBBox None (scene_of [tri f3 0; tri f2 1] [])))
    (Scene_.box_returned (Scene_.GetBBox None (scene_of [tri f2 1; tri f3 0] []))).
Proof.
  assert (Hn : box_numbers BBox_.empty) by (repeat split).
  split; [split; [apply perm_swap|exact Hn]|].
  exact (GetBBox_order_irrelevant (scene_of [tri f3 0; tri f2 1] [])
           (scene_of [tri f2 1; tri f3 0] []) (perm_swap _ _ _) eq_refl Hn).
Defined.

End BBoxExtras.

(** ** Walking the scene description *)

Module DocumentWalk.

(** The walk visits the elements of the given name, in document order,
    and the fuel given suffices. *)
Lemma while_element_fold {S : Type} (name : string) (body : TiXmlElement -> S -> S)
    (siblings : list TiXmlElement) (fuel : nat) (s : S) :
  (length siblings < fuel)%nat ->
  while_element fuel name (find_named name siblings) body s
  = fold_left (fun s e => body e s) (List.filter (named name) siblings) s.
Proof.
  revert fuel s. induction siblings as [|e rest IH]; intros fuel s Hfuel.
  - destruct fuel; reflexivity.
  - simpl. unfold named at 1. destruct (String.eqb (xml_tag e) name) eqn:E.
    + destruct fuel as [|fuel]; [simpl in Hfuel; lia|].
      simpl. unfold NextSiblingElement. simpl. apply IH. simpl in Hfuel. lia.
    + apply IH. simpl in Hfuel. lia.
Qed.

Lemma fold_omap {A B S : Type} (f : A -> option B) (step : S -> B -> S)
    (l : list A) (s : S) :
  fold_left (fun s a => match f a with Some b => step s b | None => s end) l s
  = fold_left step (omap f l) s.
Proof.
  revert s. induction l as [|a l IH]; intros s; simpl; [reflexivity|].
  rewrite IH. destruct (f a); reflexivity.
Qed.

End DocumentWalk.

(** ** Scene::_parseTransform *)

Module Transforms.

Import DocumentWalk SampleDocument.

Section Product.

Context {Transform : Type} `{TransformOps Transform}.

Local Abbreviation product := transform_product.

(** X16. [_parseTransform] multiplies the matrices of a node in document
    order, each new one on the left of the running product, starting from
    the default transform; children that are no [Matrix] elements and
    [Matrix] elements without [value] attribute contribute nothing, and a
    null node gives the default transform. *)
Theorem parseTransform_product (node : TiXmlElement) :
  Scene_._parseTransform (Some node) = product (matrix_values node) transform_default /\
  Scene_._parseTransform None = transform_default.
Proof.
  split; [|reflexivity].
  unfold Scene_._parseTransform, FirstChildElement, matrix_values.
  rewrite while_element_fold by lia.
  apply (fold_omap (Attribute "value")
           (fun acc v => transform_mul (TransformFromStr v) acc)).
Qed.

End Product.

End Transforms.

(** ** Scene::LoadScene and Scene::_generatePriBuf *)

Module Loading.

Import DocumentWalk Sample SampleDocument LightExtras.

Section Load.

Context `{EntityIO}.

Lemma load_entity_fold (elements : list TiXmlElement) (entities : list Entity) :
  fold_left (fun ents e => Scene_.load_entity e ents) elements entities
  = entities ++ omap entity_of elements.
Proof.
  revert entities. induction elements as [|e elements IH]; intros entities; simpl.
  - rewrite app_nil_r. reflexivity.
  - rewrite IH. unfold Scene_.load_entity, entity_of.
    destruct (Attribute "filename" e) as [filename|]; [|reflexivity].
    destruct (read_class_id (IFileStream filename) 0%N) as [class_id stream].
    destruct (MakeEntity class_id); [|reflexivity].
    rewrite <- app_assoc. reflexivity.
Qed.

(** The entities and the scene [LoadScene] leaves. *)
Lemma LoadScene_m_entities (root : TiXmlElement) (d : SceneDocument) :
  m_entities (snd (Scene_.LoadScene root d)) = m_entities d ++ entities_of root.
Proof.
  unfold Scene_.LoadScene, Scene_._generatePriBuf, FirstChildElement, entities_of.
  rewrite while_element_fold by lia. cbn [fst snd scene m_entities].
  apply load_entity_fold.
Qed.

Lemma LoadScene_scene (root : TiXmlElement) (d : SceneDocument) :
  scene (snd (Scene_.LoadScene root d))
  = Scene_._genLightDistribution
      (fold_left fill (m_entities d ++ entities_of root) (scene d)).
Proof.
  unfold Scene_.LoadScene, Scene_._generatePriBuf, FirstChildElement, entities_of.
  rewrite while_element_fold by lia. cbn [fst snd scene m_entities].
  rewrite load_entity_fold. reflexivity.
Qed.

(** X18. [LoadScene] appends to [m_entities] the entities of the
    document in document order: one for each child element named
    [Entity] that has a [filename] attribute and whose class id the
    factory knows; other elements, elements without file name and
    unknown classes are passed over. It then lets every entity of
    [m_entities], the ones that were there before included, fill the
    scene, builds the light distribution and returns true. *)
Theorem LoadScene_entities (root : TiXmlElement) (d : SceneDocument) :
  fst (Scene_.LoadScene root d) = true /\
  m_entities (snd (Scene_.LoadScene root d)) = m_entities d ++ entities_of root /\
  scene (snd (Scene_.LoadScene root d))
  = Scene_._genLightDistribution
      (fold_left fill (m_entities d ++ entities_of root) (scene d)).
Proof.
  split; [reflexivity|]. split; [apply LoadScene_m_entities|apply LoadScene_scene].
Qed.

(** X19. After [LoadScene], if the scene has a light at all then
    [SampleLight] returns for every [u] in [[0, 1]]: the load has built
    the distribution that [SampleLight] asserts and dereferences. *)
Theorem SampleLight_after_LoadScene (debug : bool) (root : TiXmlElement)
    (d : SceneDocument) (u : float) (pdf : option float) :
  m_lights (scene (snd (Scene_.LoadScene root d))) <> [] ->
  fle fzero u && fle u fone = true ->
  exists res,
    Scene_.SampleLight debug (scene (snd (Scene_.LoadScene root d))) u pdf = Returned res.
Proof.
  rewrite (LoadScene_scene root d).
  set (filled := fold_left fill (m_entities d ++ entities_of root) (scene d)).
  intros Hne Hu.
  assert (Hne' : m_lights filled <> []).
  { intros E. apply Hne. pose proof (genLightDistribution_length filled) as Hlen.
    rewrite E in Hlen. destruct (m_lights _); [reflexivity|discriminate]. }
  assert (Hd : is_null (m_lightsDis (Scene_._genLightDistribution filled)) = false).
  { rewrite (genLightDistribution_lightsDis filled Hne'). reflexivity. }
  destruct (SampleLight_returns_iff (Scene_._genLightDistribution filled) u pdf)
    as [Hdebug Hrelease].
  destruct debug; [apply Hdebug|apply Hrelease]; auto.
Qed.

Lemma fill_appends (entities : list Entity) :
  Forall (fun e => exists ps, appends e ps) entities ->
  exists added, forall s,
    m_primitiveBuf (fold_left fill entities s) = m_primitiveBuf s ++ added.
Proof.
  induction 1 as [|e entities [ps He] _ [added IH]].
  - exists []. intros s. simpl. rewrite app_nil_r. reflexivity.
  - exists (ps ++ added). intros s. simpl. rewrite IH. unfold fill.
    rewrite He, <- app_assoc. reflexivity.
Qed.

(** X20. [LoadScene] is not made to be called twice. Nothing clears
    [m_entities] or the primitive buffer, and every load lets all
    entities fill the scene again: when the entities of a document only
    append primitives, loading the document a second time into the scene
    the first load produced (from an empty one) leaves the entities twice
    in [m_entities] and the primitives of the first load three times in
    the buffer. *)
Theorem LoadScene_twice (root : TiXmlElement) (d : SceneDocument) :
  m_entities d = [] -> m_primitiveBuf (scene d) = [] ->
  Forall (fun e => exists ps, appends e ps) (entities_of root) ->
  let d1 := snd (Scene_.LoadScene root d) in
  let d2 := snd (Scene_.LoadScene root d1) in
  m_entities d2 = entities_of root ++ entities_of root /\
  m_primitiveBuf (scene d2)
  = m_primitiveBuf (scene d1) ++ m_primitiveBuf (scene d1) ++ m_primitiveBuf (scene d1).
Proof.
  intros He Hb Happ. cbv zeta.
  destruct (fill_appends _ Happ) as [added Hadd].
  pose proof (LoadScene_m_entities root d) as E1.
  pose proof (LoadScene_scene root d) as S1.
  remember (snd (Scene_.LoadScene root d)) as d1 eqn:Ed1. clear Ed1.
  pose proof (LoadScene_m_entities root d1) as E2.
  pose proof (LoadScene_scene root d1) as S2.
  remember (snd (Scene_.LoadScene root d1)) as d2 eqn:Ed2. clear Ed2.
  rewrite He in E1, S1. simpl in E1, S1. rewrite E1 in E2, S2.
  assert (B1 : m_primitiveBuf (scene d1) = added).
  { rewrite S1, genLightDistribution_primitiveBuf, Hadd, Hb. reflexivity. }
  split; [exact E2|].
  rewrite S2, genLightDistribution_primitiveBuf.
  rewrite fold_left_app, !Hadd, B1, <- app_assoc. reflexivity.
Qed.

End Load.

(** X19, at a document whose entities bring no light into a scene that
    has two lights. *)
Lemma SampleLight_after_LoadScene_witness :
  (m_lights (scene (snd (Scene_.LoadScene document
                           {| scene := scene_of [] [light fone; light f3];
                              m_entities := [] |})))
   = [SetPickPDF (S754_finite false 8388608 (-25)) (light fone);
      SetPickPDF (S754_finite false 12582912 (-24)) (light f3)] /\
   fle fzero half && fle half fone = true) /\
  exists res,
    Scene_.SampleLight true
      (scene (snd (Scene_.LoadScene document
                     {| scene := scene_of [] [light fone; light f3]; m_entities := [] |})))
      half None = Returned res.
Proof.
  split; [split; reflexivity|].
  apply (SampleLight_after_LoadScene true document
           {| scene := scene_of [] [light fone; light f3]; m_entities := [] |} half None);
    [discriminate|reflexivity].
Defined.

(** X20, at the sample document: its two loadable entities bring one
    triangle each; after the second load the buffer holds six. *)
Lemma LoadScene_twice_witness :
  (m_entities empty_document = [] /\ m_primitiveBuf (scene empty_document) = [] /\
   length (entities_of document) = 2%nat) /\
  length (m_primitiveBuf (scene (snd (Scene_.LoadScene document empty_document)))) = 2%nat /\
  length (m_primitiveBuf
            (scene (snd (Scene_.LoadScene document
                           (snd (Scene_.LoadScene document empty_document)))))) = 6%nat.
Proof.
  assert (Happ : Forall (fun e => exists ps, appends e ps) (entities_of document)).
  { repeat constructor.
    - exists (map (tri f2) [2%N]). intros s. reflexivity.
    - exists (map (tri f2) [3%N]). intros s. reflexivity. }
  split; [repeat split|]. split; [reflexivity|].
  rewrite (proj2 (LoadScene_twice document empty_document eq_refl eq_refl Happ)).
  reflexivity.
Defined.

End Loading.
